(** * useAvoidIntersections: cascade repositioning of lineage nodes

    Shallow embedding of
    [datahub-web-react/src/app/lineageV3/LineageEntityNode/useAvoidIntersections.ts].

    Conventions of the embedding.
    - A JavaScript [number] is a [Z]: coordinates, sizes and displacements
      are integers and the arithmetic is exact, as binary64 arithmetic is on
      integers below [2^53].  Comparisons and control flow are those of the
      program on every input; a statement that rests on [y + a - a = y] or
      on the like says what the program does when no operation rounds.
      The module [Binary64] has the same definitions on binary64 numbers,
      with the rounding, and the last section shows at which collections
      the exact statements fail there.
    - An optional dimension ([width], [height]: [number | null | undefined])
      is an [option Z]; [v || d] is [or_default v d], which falls back on
      every falsy value, that is on [None] and on [Some 0].
    - [Map<string, number>] is a [gmap string Z]; [Map.set] is insertion
      with overwrite, [Map.get] is lookup, [Map.size] is [size].
    - The React Flow instance is an explicit state: the node collection and
      a counter of the calls made to [setNodes].  [getNode], [getNodes] and
      [setNodes] are passed to [avoidIntersections] as in the source.
    - [isTransformational], [LINEAGE_NODE_WIDTH] and [LINEAGE_NODE_HEIGHT]
      are imported from [@app/lineageV3/common]; they are parameters of the
      development, gathered in the class [LineageCommon].
    - Where a statement is about which object a node is, nodes and arrays
      live in a heap of objects and are named by references
      (section "Object identity").
    - A hook is the effect it hands to React; [setTimeout] and
      [clearTimeout] act on the pending timers of the page
      (section "The hooks"). *)

From Stdlib Require Import ZArith Lia Sorted Permutation.
From Stdlib Require Import Floats.
From stdpp Require Import base strings list gmap.

Set Warnings "-inexact-float".

#[local] Open Scope Z_scope.

(** ** JavaScript values *)

(** [if (v)] on a number: every number but [0] is truthy. *)
Definition truthy (v : Z) : bool := negb (v =? 0).

(** [v || d] on an optional number. *)
Definition or_default (v : option Z) (d : Z) : Z :=
  match v with
  | Some n => if truthy n then n else d
  | None => d
  end.

(** [if (m.get(k))]: the amount when it is present and truthy. *)
Definition truthy_amount (v : option Z) : option Z :=
  match v with
  | Some n => if truthy n then Some n else None
  | None => None
  end.

(** ** The imports

    What the file takes from [@app/lineageV3/common] and [@types]: the type
    of a node's [data], the root types, the classification predicate and the
    two default dimensions. *)
Class LineageCommon : Type := {
  NodeData : Type;
  EntityType : Type;
  isTransformational : NodeData -> EntityType -> bool;
  LINEAGE_NODE_HEIGHT : Z;
  LINEAGE_NODE_WIDTH : Z
}.

Section UseAvoidIntersections.

Context `{LineageCommon}.

(** ** Nodes *)

Record XYPosition : Type := mkPosition {
  pos_x : Z;
  pos_y : Z
}.

Record Node : Type := mkNode {
  node_id : string;
  node_position : XYPosition;
  node_width : option Z;
  node_height : option Z;
  node_data : NodeData
}.

Definition node_y (n : Node) : Z := pos_y (node_position n).
Definition node_x (n : Node) : Z := pos_x (node_position n).

(** [{...node, position: {...node.position, y: v}}] *)
Definition with_y (n : Node) (v : Z) : Node :=
  {| node_id := node_id n;
     node_position := {| pos_x := pos_x (node_position n); pos_y := v |};
     node_width := node_width n;
     node_height := node_height n;
     node_data := node_data n |}.

(** ** The React Flow instance *)

Record ReactFlow : Type := mkFlow {
  rf_nodes : list Node;
  rf_setNodes_calls : nat
}.

(** Code that runs against the instance. *)
Definition Eff (A : Type) : Type := ReactFlow -> A * ReactFlow.

Definition eff_ret {A} (a : A) : Eff A := fun s => (a, s).
Definition eff_bind {A B} (m : Eff A) (k : A -> Eff B) : Eff B :=
  fun s => let '(a, s') := m s in k a s'.

Notation "'let!' v ':=' m 'in' k" := (eff_bind m (fun v => k))
  (at level 10, v name, m at level 100, k at level 200, only parsing).
Notation "m ';;!' k" := (eff_bind m (fun _ => k))
  (at level 100, k at level 200, right associativity, only parsing).

Definition run {A} (m : Eff A) (s : ReactFlow) : A * ReactFlow := m s.

(** [() => {}] *)
Definition noop : Eff unit := eff_ret tt.

Definition getNode (id : string) : Eff (option Node) :=
  fun s => (List.find (fun n => String.eqb (node_id n) id) (rf_nodes s), s).

Definition getNodes : Eff (list Node) :=
  fun s => (rf_nodes s, s).

Definition setNodes (update : list Node -> list Node) : Eff unit :=
  fun s => (tt, {| rf_nodes := update (rf_nodes s);
                   rf_setNodes_calls := S (rf_setNodes_calls s) |}).

(** ** overlapsX, pushDownDistance *)

Definition overlapsX (a b : Node) : bool :=
  Z.min (node_x a + or_default (node_width a) LINEAGE_NODE_WIDTH)
        (node_x b + or_default (node_width b) LINEAGE_NODE_WIDTH)
  >? Z.max (node_x a) (node_x b).

Definition MIN_SEPARATION : Z := 10.

Definition pushDownDistance (newY nodeY : Z) : Z :=
  Z.max 0 (newY + MIN_SEPARATION - nodeY).

(** ** moveNodes *)

(** The arrow function of [nodes.map] in [moveNodes]. *)
Definition moveNode (nodesToMove : gmap string Z) (down : bool) (node : Node) : Node :=
  match nodesToMove !! node_id node with
  | Some moveAmount =>
      if truthy moveAmount
      then with_y node (node_y node + (if down then moveAmount else - moveAmount))
      else node
  | None => node
  end.

Definition moveNodes (setNodes : (list Node -> list Node) -> Eff unit)
    (nodesToMove : gmap string Z) (down : bool) : Eff unit :=
  setNodes (fun nodes => List.map (moveNode nodesToMove down) nodes).

(** ** avoidIntersections *)

(** [nodes.sort((a, b) => a.position.y - b.position.y)].  [Array.prototype.sort]
    is stable, and the comparator is a total preorder on integers, so the
    result is the one stable arrangement by ascending [y]: an element is put
    in front of the elements that followed it in the input and have the same
    [y]. *)
Fixpoint insert_by_y (n : Node) (l : list Node) : list Node :=
  match l with
  | [] => [n]
  | m :: l' => if node_y n <=? node_y m then n :: m :: l' else m :: insert_by_y n l'
  end.

Definition sort_by_y (l : list Node) : list Node := foldr insert_by_y [] l.

(** Lines 57-60: the nodes the loop walks. *)
Definition candidates (self : Node) (rootType : EntityType) (all : list Node) : list Node :=
  sort_by_y
    (List.filter
       (fun node => negb (String.eqb (node_id node) (node_id self))
                    && (node_y node >=? node_y self)
                    && overlapsX self node)
       (List.filter (fun node => negb (isTransformational (node_data node) rootType)) all)).

(** Lines 62-72: the loop, on its two variables [newY] and [nodesToMove]. *)
Fixpoint cascade (nodes : list Node) (newY : Z) (nodesToMove : gmap string Z)
    : Z * gmap string Z :=
  match nodes with
  | [] => (newY, nodesToMove)
  | node :: rest =>
      let distance := pushDownDistance newY (node_y node) in
      if truthy (pushDownDistance newY (node_y node))
      then cascade rest
             (node_y node + distance + or_default (node_height node) LINEAGE_NODE_HEIGHT)
             (<[node_id node := distance]> nodesToMove)
      else (newY, nodesToMove)
  end.

(** Lines 55-72: the MoveSet computed for [self]. *)
Definition computeMoves (self : Node) (expandHeight : Z) (rootType : EntityType)
    (all : list Node) : gmap string Z :=
  snd (cascade (candidates self rootType all) (node_y self + expandHeight) ∅).

Definition avoidIntersections (id : string) (expandHeight : Z) (rootType : EntityType)
    (getNode : string -> Eff (option Node))
    (getNodes : Eff (list Node))
    (setNodes : (list Node -> list Node) -> Eff unit) : Eff (Eff unit) :=
  let! self := getNode id in
  match self with
  | None => eff_ret noop
  | Some self =>
      let! all := getNodes in
      let nodesToMove := computeMoves self expandHeight rootType all in
      if negb (size nodesToMove =? 0)%nat
      then moveNodes setNodes nodesToMove true ;;!
           eff_ret (moveNodes setNodes nodesToMove false)
      else eff_ret noop
  end.

(** ** The hooks

    A hook hands React an effect.  React runs the effect after a render in
    which one of its dependencies changed; when the effect returns a
    function, that function is its cleanup, which React runs before the next
    run of the effect and when the component goes away. *)

(** Lines 18-22, the effect of [useAvoidIntersections].  Its body has no
    [return]: the function [avoidIntersections] returns is dropped and the
    effect has no cleanup. *)
Definition useAvoidIntersections_effect
    (id : string) (expandHeight : Z) (rootType : EntityType) (skip : bool)
    (getNode : string -> Eff (option Node))
    (getNodes : Eff (list Node))
    (setNodes : (list Node -> list Node) -> Eff unit) : Eff (option (Eff unit)) :=
  if negb skip
  then avoidIntersections id expandHeight rootType getNode getNodes setNodes ;;!
       eff_ret None
  else eff_ret None.

(** The page the hooks run in: the React Flow instance and the timers that
    are set and have not fired.  A timer is its handle and what its callback
    does to the instance. *)
Record Page : Type := mkPage {
  pg_flow : ReactFlow;
  pg_timers : list (nat * (ReactFlow -> ReactFlow));
  pg_next_timer : nat
}.

Definition setTimeout (callback : ReactFlow -> ReactFlow) (p : Page) : nat * Page :=
  (pg_next_timer p,
   {| pg_flow := pg_flow p;
      pg_timers := pg_timers p ++ [(pg_next_timer p, callback)];
      pg_next_timer := S (pg_next_timer p) |}).

(** A handle that is not pending clears nothing. *)
Definition clearTimeout (timeout : nat) (p : Page) : Page :=
  {| pg_flow := pg_flow p;
     pg_timers := List.filter (fun t => negb (Nat.eqb (fst t) timeout)) (pg_timers p);
     pg_next_timer := pg_next_timer p |}.

(** A turn of the event loop in which the timer [timeout] fires: its
    callback runs, what it returns is ignored, and the timer is pending no
    more.  A handle that is not pending fires nothing. *)
Definition fireTimer (timeout : nat) (p : Page) : Page :=
  match List.find (fun t => Nat.eqb (fst t) timeout) (pg_timers p) with
  | Some (_, callback) =>
      {| pg_flow := callback (pg_flow p);
         pg_timers := List.filter (fun t => negb (Nat.eqb (fst t) timeout)) (pg_timers p);
         pg_next_timer := pg_next_timer p |}
  | None => p
  end.

(** Lines 32-41, the effect of [useAvoidIntersectionsOften]: the call is put
    off to a timer and the cleanup clears that timer. *)
Definition useAvoidIntersectionsOften_effect
    (id : string) (expandHeight : Z) (rootType : EntityType) (skip : bool)
    (getNode : string -> Eff (option Node))
    (getNodes : Eff (list Node))
    (setNodes : (list Node -> list Node) -> Eff unit)
    (p : Page) : (Page -> Page) * Page :=
  if negb skip
  then
    let '(timeout, p') :=
      setTimeout
        (fun s => snd (run (avoidIntersections id expandHeight rootType
                              getNode getNodes setNodes) s))
        p in
    (clearTimeout timeout, p')
  else (fun p' => p', p).

(** ** Notions used in the statements *)

(** A node that was moved down or left alone. *)
Definition moved_down (n n' : Node) : Prop :=
  node_id n' = node_id n /\ node_x n' = node_x n /\
  node_width n' = node_width n /\ node_height n' = node_height n /\
  node_data n' = node_data n /\ node_y n <= node_y n'.

(** The handles of the pending timers are handles that were given out. *)
Definition timers_wf (p : Page) : Prop :=
  Forall (fun t => (fst t < pg_next_timer p)%nat) (pg_timers p).

(** Ascending [y], the order of the sort. *)
Definition le_y (a b : Node) : Prop := node_y a <= node_y b.

(** The height the loop gives a node: [node.height || LINEAGE_NODE_HEIGHT]. *)
Definition height_of (n : Node) : Z := or_default (node_height n) LINEAGE_NODE_HEIGHT.



(** The nodes the loop pushes, in the order of the walk, each with the
    distance recorded for it. *)
Fixpoint pushed (nodes : list Node) (newY : Z) : list (Node * Z) :=
  match nodes with
  | [] => []
  | node :: rest =>
      let distance := pushDownDistance newY (node_y node) in
      if truthy distance
      then (node, distance)
             :: pushed rest (node_y node + distance + height_of node)
      else []
  end.

(** ** Object identity

    The same update with nodes and arrays as objects.  A reference is an
    index in the heap; allocation appends, so no object is ever overwritten
    unless the code assigns to it, which this file never does.  A node
    object holds its [position] by value. *)

Inductive object : Type :=
  | ONode (node : Node)
  | OArray (elems : list nat).

Definition alloc (h : list object) (o : object) : nat * list object :=
  (length h, h ++ [o]).

(** The arrow function of [nodes.map]: a fresh object from the spread when
    the amount is truthy, the argument itself otherwise. *)
Definition moveNode_ref (nodesToMove : gmap string Z) (down : bool)
    (r : nat) (h : list object) : option (nat * list object) :=
  match h !! r with
  | Some (ONode node) =>
      match nodesToMove !! node_id node with
      | Some moveAmount =>
          if truthy moveAmount
          then Some (alloc h
                 (ONode (with_y node
                           (node_y node + (if down then moveAmount else - moveAmount)))))
          else Some (r, h)
      | None => Some (r, h)
      end
  | _ => None
  end.

(** [Array.prototype.map]: the callback on each element, left to right. *)
Fixpoint map_refs (f : nat -> list object -> option (nat * list object))
    (rs : list nat) (h : list object) : option (list nat * list object) :=
  match rs with
  | [] => Some ([], h)
  | r :: rs' =>
      match f r h with
      | Some (r', h1) =>
          match map_refs f rs' h1 with
          | Some (out, h2) => Some (r' :: out, h2)
          | None => None
          end
      | None => None
      end
  end.

(** The updater [moveNodes] hands to [setNodes], on an array object. *)
Definition moveNodes_update_ref (nodesToMove : gmap string Z) (down : bool)
    (nodes : nat) (h : list object) : option (nat * list object) :=
  match h !! nodes with
  | Some (OArray rs) =>
      match map_refs (moveNode_ref nodesToMove down) rs h with
      | Some (out, h') => Some (alloc h' (OArray out))
      | None => None
      end
  | _ => None
  end.

(** The node values an array of references stands for. *)
Definition deref_nodes (h : list object) (rs : list nat) : option (list Node) :=
  mapM (fun r => match h !! r with Some (ONode n) => Some n | _ => None end) rs.

End UseAvoidIntersections.

(** ** A concrete instance

    Node data is the transformational flag itself, there is one root type,
    and the default box is 320 by 80. *)
Module Sample.

#[export] Instance common : LineageCommon := {|
  NodeData := bool;
  EntityType := unit;
  isTransformational := fun d _ => d;
  LINEAGE_NODE_HEIGHT := 80;
  LINEAGE_NODE_WIDTH := 320
|}.

Definition node (id : string) (px py : Z) (h : option Z) : Node :=
  {| node_id := id;
     node_position := {| pos_x := px; pos_y := py |};
     node_width := None;
     node_height := h;
     node_data := false |}.

Definition self : Node := node "self" 0 100 None.
Definition B : Node := node "B" 0 150 (Some 40).
Definition C : Node := node "C" 0 210 None.

Definition D : Node := node "D" 100 230 (Some 0).

(** A node of width [0]. *)
Definition thin : Node :=
  {| node_id := "thin";
     node_position := {| pos_x := 40; pos_y := 0 |};
     node_width := Some 0;
     node_height := None;
     node_data := false |}.

(** A collection is in no particular order. *)
Definition flow : ReactFlow := {| rf_nodes := [self; C; B]; rf_setNodes_calls := 0 |}.
Definition flow4 : ReactFlow := {| rf_nodes := [D; self; C; B]; rf_setNodes_calls := 0 |}.

(** The first collection as objects: the three nodes, then their array. *)
Definition heap : list object := [ONode self; ONode C; ONode B; OArray [0; 1; 2]%nat].

(** A page with the first collection and one timer of other code pending. *)
Definition page : Page :=
  {| pg_flow := flow;
     pg_timers := [(0%nat, fun s => s)];
     pg_next_timer := 1 |}.

End Sample.

(** * The same code on binary64 numbers

    The definitions of this module are the definitions above with a
    JavaScript [number] taken as what it is, an IEEE 754 binary64 value, and
    every operation rounded as the program rounds it.  They are there to
    show where a statement that holds with exact arithmetic stops holding
    for the program.  Names are those of the exact definitions. *)
Module Binary64.

#[local] Open Scope float_scope.

(** [if (v)]: every number but [0], [-0] and [NaN] is truthy. *)
Definition truthy (v : float) : bool :=
  negb (PrimFloat.eqb v 0) && negb (PrimFloat.is_nan v).

(** [v || d] on an optional number. *)
Definition or_default (v : option float) (d : float) : float :=
  match v with
  | Some n => if truthy n then n else d
  | None => d
  end.

(** [Math.max] and [Math.min] of two numbers: [NaN] when one of them is
    [NaN], and [-0] below [+0]. *)
Definition Math_max (a b : float) : float :=
  if PrimFloat.is_nan a || PrimFloat.is_nan b then PrimFloat.nan
  else if PrimFloat.ltb a b then b
  else if PrimFloat.ltb b a then a
  else if PrimFloat.get_sign a then b else a.

Definition Math_min (a b : float) : float :=
  if PrimFloat.is_nan a || PrimFloat.is_nan b then PrimFloat.nan
  else if PrimFloat.ltb a b then a
  else if PrimFloat.ltb b a then b
  else if PrimFloat.get_sign a then a else b.


Class LineageCommon : Type := {
  NodeData : Type;
  EntityType : Type;
  isTransformational : NodeData -> EntityType -> bool;
  LINEAGE_NODE_HEIGHT : float;
  LINEAGE_NODE_WIDTH : float
}.

Section UseAvoidIntersections.

Context `{LineageCommon}.

Record XYPosition : Type := mkPosition {
  pos_x : float;
  pos_y : float
}.

Record Node : Type := mkNode {
  node_id : string;
  node_position : XYPosition;
  node_width : option float;
  node_height : option float;
  node_data : NodeData
}.

Definition node_y (n : Node) : float := pos_y (node_position n).
Definition node_x (n : Node) : float := pos_x (node_position n).

Definition with_y (n : Node) (v : float) : Node :=
  {| node_id := node_id n;
     node_position := {| pos_x := pos_x (node_position n); pos_y := v |};
     node_width := node_width n;
     node_height := node_height n;
     node_data := node_data n |}.

Record ReactFlow : Type := mkFlow {
  rf_nodes : list Node;
  rf_setNodes_calls : nat
}.

Definition Eff (A : Type) : Type := ReactFlow -> A * ReactFlow.

Definition eff_ret {A} (a : A) : Eff A := fun s => (a, s).
Definition eff_bind {A B} (m : Eff A) (k : A -> Eff B) : Eff B :=
  fun s => let '(a, s') := m s in k a s'.

Notation "'let!' v ':=' m 'in' k" := (eff_bind m (fun v => k))
  (at level 10, v name, m at level 100, k at level 200, only parsing).
Notation "m ';;!' k" := (eff_bind m (fun _ => k))
  (at level 100, k at level 200, right associativity, only parsing).

Definition run {A} (m : Eff A) (s : ReactFlow) : A * ReactFlow := m s.

Definition noop : Eff unit := eff_ret tt.

Definition getNode (id : string) : Eff (option Node) :=
  fun s => (List.find (fun n => String.eqb (node_id n) id) (rf_nodes s), s).

Definition getNodes : Eff (list Node) :=
  fun s => (rf_nodes s, s).

Definition setNodes (update : list Node -> list Node) : Eff unit :=
  fun s => (tt, {| rf_nodes := update (rf_nodes s);
                   rf_setNodes_calls := S (rf_setNodes_calls s) |}).

(** Lines 82-87. *)
Definition overlapsX (a b : Node) : bool :=
  PrimFloat.ltb
    (Math_max (node_x a) (node_x b))
    (Math_min (node_x a + or_default (node_width a) LINEAGE_NODE_WIDTH)
              (node_x b + or_default (node_width b) LINEAGE_NODE_WIDTH)).

Definition MIN_SEPARATION : float := 10.

(** Lines 91-93: [newY + MIN_SEPARATION - nodeY] is a sum, rounded, and then
    a difference, rounded. *)
Definition pushDownDistance (newY nodeY : float) : float :=
  Math_max 0 (newY + MIN_SEPARATION - nodeY).

(** Lines 97-110. *)
Definition moveNode (nodesToMove : gmap string float) (down : bool) (node : Node) : Node :=
  match nodesToMove !! node_id node with
  | Some moveAmount =>
      if truthy moveAmount
      then with_y node (node_y node + (if down then moveAmount else - moveAmount))
      else node
  | None => node
  end.

Definition moveNodes (setNodes : (list Node -> list Node) -> Eff unit)
    (nodesToMove : gmap string float) (down : bool) : Eff unit :=
  setNodes (fun nodes => List.map (moveNode nodesToMove down) nodes).

(** Line 60: the stable sort, with the comparator [a.position.y -
    b.position.y] as it is: an element goes behind the next one when the
    difference is above [0].  No [y] is [NaN] below. *)
Fixpoint insert_by_y (n : Node) (l : list Node) : list Node :=
  match l with
  | [] => [n]
  | m :: l' =>
      if PrimFloat.ltb 0 (node_y n - node_y m)
      then m :: insert_by_y n l'
      else n :: m :: l'
  end.

Definition sort_by_y (l : list Node) : list Node := foldr insert_by_y [] l.

(** Lines 57-60. *)
Definition candidates (self : Node) (rootType : EntityType) (all : list Node) : list Node :=
  sort_by_y
    (List.filter
       (fun node => negb (String.eqb (node_id node) (node_id self))
                    && PrimFloat.leb (node_y self) (node_y node)
                    && overlapsX self node)
       (List.filter (fun node => negb (isTransformational (node_data node) rootType)) all)).

(** Lines 62-72. *)
Fixpoint cascade (nodes : list Node) (newY : float) (nodesToMove : gmap string float)
    : float * gmap string float :=
  match nodes with
  | [] => (newY, nodesToMove)
  | node :: rest =>
      let distance := pushDownDistance newY (node_y node) in
      if truthy (pushDownDistance newY (node_y node))
      then cascade rest
             (node_y node + distance + or_default (node_height node) LINEAGE_NODE_HEIGHT)
             (<[node_id node := distance]> nodesToMove)
      else (newY, nodesToMove)
  end.

Definition computeMoves (self : Node) (expandHeight : float) (rootType : EntityType)
    (all : list Node) : gmap string float :=
  snd (cascade (candidates self rootType all) (node_y self + expandHeight) ∅).

(** Lines 49-80. *)
Definition avoidIntersections (id : string) (expandHeight : float) (rootType : EntityType)
    (getNode : string -> Eff (option Node))
    (getNodes : Eff (list Node))
    (setNodes : (list Node -> list Node) -> Eff unit) : Eff (Eff unit) :=
  let! self := getNode id in
  match self with
  | None => eff_ret noop
  | Some self =>
      let! all := getNodes in
      let nodesToMove := computeMoves self expandHeight rootType all in
      if negb (size nodesToMove =? 0)%nat
      then moveNodes setNodes nodesToMove true ;;!
           eff_ret (moveNodes setNodes nodesToMove false)
      else eff_ret noop
  end.

End UseAvoidIntersections.

(** Concrete collections, with the default box 320 by 80. *)
Module Sample.

#[export] Instance common : LineageCommon := {|
  NodeData := bool;
  EntityType := unit;
  isTransformational := fun d _ => d;
  LINEAGE_NODE_HEIGHT := 80;
  LINEAGE_NODE_WIDTH := 320
|}.

Definition node (id : string) (py : float) (h : option float) : Node :=
  {| node_id := id;
     node_position := {| pos_x := 0; pos_y := py |};
     node_width := None;
     node_height := h;
     node_data := false |}.

Definition flow (nodes : list Node) : ReactFlow :=
  {| rf_nodes := nodes; rf_setNodes_calls := 0 |}.




End Sample.

End Binary64.

(** * Properties *)

Section Properties.

Context `{LineageCommon}.

Implicit Types (n node self : Node) (l nodes all : list Node).
Implicit Types (m nodesToMove : gmap string Z) (s : ReactFlow).

(** ** Truthiness and the push distance *)

Lemma truthy_true v : truthy v = true <-> v <> 0.
Proof.
  unfold truthy. destruct (Z.eqb_spec v 0); simpl; split; intros; congruence.
Qed.

Lemma truthy_false v : truthy v = false <-> v = 0.
Proof.
  unfold truthy. destruct (Z.eqb_spec v 0); simpl; split; intros; congruence.
Qed.

Lemma or_default_zero d : or_default (Some 0) d = or_default None d.
Proof. reflexivity. Qed.

Lemma or_default_truthy v d : v <> 0 -> or_default (Some v) d = v.
Proof. intros Hv. simpl. apply truthy_true in Hv. now rewrite Hv. Qed.

Lemma pushDownDistance_nonneg newY nodeY : 0 <= pushDownDistance newY nodeY.
Proof. unfold pushDownDistance. lia. Qed.

Lemma pushDownDistance_push newY nodeY :
  truthy (pushDownDistance newY nodeY) = true <-> 0 < newY + MIN_SEPARATION - nodeY.
Proof. rewrite truthy_true. unfold pushDownDistance. lia. Qed.

Lemma pushDownDistance_stop newY nodeY :
  truthy (pushDownDistance newY nodeY) = false <-> newY + MIN_SEPARATION - nodeY <= 0.
Proof. rewrite truthy_false. unfold pushDownDistance. lia. Qed.


(** ** moveNode *)


Lemma moveNode_unmoved m down n :
  truthy_amount (m !! node_id n) = None -> moveNode m down n = n.
Proof.
  unfold moveNode, truthy_amount. destruct (m !! node_id n) as [a|]; [|done].
  now destruct (truthy a).
Qed.

Lemma moveNode_moved m down n a :
  truthy_amount (m !! node_id n) = Some a ->
  moveNode m down n = with_y n (node_y n + (if down then a else - a)).
Proof.
  unfold moveNode, truthy_amount. destruct (m !! node_id n) as [a'|]; [|done].
  destruct (truthy a'); [|done]. now intros [= ->].
Qed.



Lemma moveNode_y m down n :
  node_y (moveNode m down n)
  = node_y n + (if down then 1 else -1) * default 0 (truthy_amount (m !! node_id n)).
Proof.
  destruct (truthy_amount (m !! node_id n)) as [a|] eqn:Ha.
  - rewrite (moveNode_moved _ _ _ _ Ha). unfold node_y; simpl. destruct down; lia.
  - rewrite (moveNode_unmoved _ _ _ Ha). simpl. lia.
Qed.

Lemma moveNode_frame m down n :
  node_id (moveNode m down n) = node_id n /\
  node_x (moveNode m down n) = node_x n /\
  node_width (moveNode m down n) = node_width n /\
  node_height (moveNode m down n) = node_height n /\
  node_data (moveNode m down n) = node_data n.
Proof.
  unfold moveNode. destruct (m !! node_id n) as [a|]; [|done].
  now destruct (truthy a).
Qed.



Lemma map_moveNode_lookup m down l (i : nat) :
  List.map (moveNode m down) l !! i = moveNode m down <$> l !! i.
Proof. apply list_lookup_fmap. Qed.


(** ** The sort *)

Lemma insert_by_y_perm n l : insert_by_y n l ≡ₚ n :: l.
Proof.
  induction l as [|k l IH]; simpl; [done|].
  destruct (node_y n <=? node_y k); [done|].
  rewrite IH. apply Permutation_swap.
Qed.

Lemma sort_by_y_perm l : sort_by_y l ≡ₚ l.
Proof.
  induction l as [|n l IH]; simpl; [done|].
  now rewrite insert_by_y_perm, IH.
Qed.

Lemma elem_of_sort_by_y n l : n ∈ sort_by_y l <-> n ∈ l.
Proof. now rewrite sort_by_y_perm. Qed.

Lemma insert_by_y_sorted n l :
  StronglySorted le_y l -> StronglySorted le_y (insert_by_y n l).
Proof.
  induction l as [|k l IH]; intros Hs; simpl.
  - repeat constructor.
  - destruct (Z.leb_spec (node_y n) (node_y k)) as [Hle|Hgt].
    + constructor; [done|]. apply List.Forall_cons; [done|].
      apply StronglySorted_inv in Hs as [_ Hk].
      eapply List.Forall_impl; [|exact Hk]. unfold le_y. intros; simpl in *; lia.
    + apply StronglySorted_inv in Hs as [Hs Hk].
      constructor; [now apply IH|].
      apply Forall_forall. intros k' Hk'.
      rewrite insert_by_y_perm in Hk'. apply elem_of_cons in Hk' as [->|Hk'].
      * unfold le_y. lia.
      * rewrite List.Forall_forall in Hk. apply Hk. now apply list_elem_of_In.
Qed.

Lemma sort_by_y_sorted l : StronglySorted le_y (sort_by_y l).
Proof.
  induction l as [|n l IH]; simpl; [constructor|]. now apply insert_by_y_sorted.
Qed.

Lemma insert_by_y_head n l :
  (forall k, head l = Some k -> node_y n <= node_y k) -> insert_by_y n l = n :: l.
Proof.
  destruct l as [|k l]; simpl; [done|]. intros Hk.
  destruct (Z.leb_spec (node_y n) (node_y k)); [done|].
  specialize (Hk k eq_refl). lia.
Qed.

Lemma head_elem_of {A} (xs : list A) (a : A) : head xs = Some a -> a ∈ xs.
Proof. destruct xs; [done|]. intros [= ->]. apply list_elem_of_here. Qed.

Lemma elem_of_List_filter (P : Node -> bool) n l :
  n ∈ List.filter P l <-> n ∈ l /\ P n = true.
Proof. rewrite !list_elem_of_In. apply List.filter_In. Qed.

(** The sort is stable: it commutes with every filter. *)
Lemma filter_insert_by_y (P : Node -> bool) n l :
  StronglySorted le_y l ->
  List.filter P (insert_by_y n l)
  = if P n then insert_by_y n (List.filter P l) else List.filter P l.
Proof.
  induction l as [|k l IH]; intros Hs; simpl.
  - now destruct (P n).
  - apply StronglySorted_inv in Hs as [Hs Hk].
    destruct (Z.leb_spec (node_y n) (node_y k)) as [Hle|Hgt]; simpl.
    + destruct (P n) eqn:Hn; [|done].
      symmetry. apply insert_by_y_head. intros k' Hk'.
      assert (Hin : k' ∈ List.filter P (k :: l)) by exact (head_elem_of _ _ Hk').
      apply elem_of_List_filter in Hin as [Hin _].
      apply elem_of_cons in Hin as [->|Hin]; [done|].
      rewrite List.Forall_forall in Hk. apply list_elem_of_In, Hk in Hin.
      unfold le_y in Hin. lia.
    + rewrite (IH Hs). destruct (P k), (P n); simpl; try done.
      destruct (Z.leb_spec (node_y n) (node_y k)); [lia|done].
Qed.

Lemma filter_sort_by_y (P : Node -> bool) l :
  List.filter P (sort_by_y l) = sort_by_y (List.filter P l).
Proof.
  induction l as [|n l IH]; simpl; [done|].
  rewrite filter_insert_by_y by apply sort_by_y_sorted.
  rewrite IH. now destruct (P n).
Qed.

Lemma sort_by_y_level l k : (forall n, n ∈ l -> node_y n = k) -> sort_by_y l = l.
Proof.
  induction l as [|n l IH]; intros Hk; simpl; [done|].
  rewrite IH by (intros k' Hk'; apply Hk; now right).
  apply insert_by_y_head. intros k' Hk'. apply head_elem_of in Hk'.
  rewrite (Hk n), (Hk k'); [lia|now right|left].
Qed.

(** Nodes with the same [y] keep the order they came in. *)
Lemma sort_by_y_stable l k :
  List.filter (fun n => node_y n =? k) (sort_by_y l)
  = List.filter (fun n => node_y n =? k) l.
Proof.
  rewrite filter_sort_by_y. apply (sort_by_y_level _ k).
  intros n Hn. apply elem_of_List_filter in Hn as [_ Hn]. now apply Z.eqb_eq.
Qed.

Lemma overlapsX_sym (a b : Node) : overlapsX a b = overlapsX b a.
Proof. unfold overlapsX. now rewrite Z.min_comm, Z.max_comm. Qed.

(** ** Unique identifiers

    In a node collection of React Flow the identifiers are pairwise
    distinct: the collection is kept in a map keyed by them. *)

Abbreviation ids l := (List.map node_id l) (only parsing).

Lemma elem_of_ids n l : n ∈ l -> node_id n ∈ ids l.
Proof. intros Hn. apply list_elem_of_In, List.in_map, list_elem_of_In, Hn. Qed.

Lemma elem_of_ids_inv (k : string) l : k ∈ ids l -> exists n, n ∈ l /\ node_id n = k.
Proof.
  rewrite list_elem_of_In, List.in_map_iff. intros (n & Hk & Hn).
  exists n. now rewrite list_elem_of_In.
Qed.

Lemma NoDup_ids_filter (P : Node -> bool) l : NoDup (ids l) -> NoDup (ids (List.filter P l)).
Proof.
  induction l as [|n l IH]; simpl; [done|].
  rewrite NoDup_cons. intros [Hn Hl]. destruct (P n); simpl; [|auto].
  apply NoDup_cons. split; [|auto].
  intros Hin. apply Hn. apply elem_of_ids_inv in Hin as (k & Hk & <-).
  apply elem_of_List_filter in Hk as [Hk _]. now apply elem_of_ids.
Qed.

Lemma NoDup_ids_perm l l' : l ≡ₚ l' -> NoDup (ids l) -> NoDup (ids l').
Proof.
  intros Hp. assert (Hm : ids l ≡ₚ ids l') by now apply Permutation_map.
  now rewrite Hm.
Qed.

Lemma NoDup_ids_inj l a b :
  NoDup (ids l) -> a ∈ l -> b ∈ l -> node_id a = node_id b -> a = b.
Proof.
  induction l as [|n l IH]; simpl; [by intros _ ?%elem_of_nil|].
  rewrite NoDup_cons. intros [Hn Hl] Ha Hb Hab.
  apply elem_of_cons in Ha as [->|Ha], Hb as [->|Hb]; auto.
  - exfalso. apply Hn. rewrite Hab. now apply elem_of_ids.
  - exfalso. apply Hn. rewrite <- Hab. now apply elem_of_ids.
Qed.

Lemma NoDup_ids_app_disjoint l1 l2 a b :
  NoDup (ids (l1 ++ l2)) -> a ∈ l1 -> b ∈ l2 -> node_id a <> node_id b.
Proof.
  rewrite List.map_app, NoDup_app. intros (_ & Hd & _) Ha Hb Hab.
  apply (Hd (node_id a)); [now apply elem_of_ids|]. rewrite Hab. now apply elem_of_ids.
Qed.


Lemma getNode_Some id s self :
  fst (run (getNode id) s) = Some self -> self ∈ rf_nodes s /\ node_id self = id.
Proof.
  unfold run, getNode; simpl. intros Hf. apply List.find_some in Hf as [Hin Hid].
  split; [now apply list_elem_of_In|]. now apply String.eqb_eq.
Qed.

(** ** The candidates *)

Lemma elem_of_candidates self rootType all n :
  n ∈ candidates self rootType all <->
  n ∈ all /\ node_id n <> node_id self /\ node_y self <= node_y n /\
  isTransformational (node_data n) rootType = false /\ overlapsX self n = true.
Proof.
  unfold candidates. rewrite elem_of_sort_by_y, !elem_of_List_filter.
  rewrite !andb_true_iff, !negb_true_iff, Z.geb_le, String.eqb_neq. tauto.
Qed.


Lemma candidates_NoDup self rootType all :
  NoDup (ids all) -> NoDup (ids (candidates self rootType all)).
Proof.
  intros Hnd. unfold candidates.
  eapply NoDup_ids_perm; [symmetry; apply sort_by_y_perm|].
  now do 2 apply NoDup_ids_filter.
Qed.

(** ** The loop *)

Lemma cascade_push node rest newY m :
  truthy (pushDownDistance newY (node_y node)) = true ->
  cascade (node :: rest) newY m
  = cascade rest
      (node_y node + pushDownDistance newY (node_y node) + height_of node)
      (<[node_id node := pushDownDistance newY (node_y node)]> m).
Proof. intros Ht. simpl. now rewrite Ht. Qed.

Lemma cascade_stop node rest newY m :
  truthy (pushDownDistance newY (node_y node)) = false ->
  cascade (node :: rest) newY m = (newY, m).
Proof. intros Ht. simpl. now rewrite Ht. Qed.

Lemma cascade_app l1 l2 newY m :
  cascade (l1 ++ l2) newY m = cascade l1 newY m \/
  cascade (l1 ++ l2) newY m
  = cascade l2 (fst (cascade l1 newY m)) (snd (cascade l1 newY m)).
Proof.
  revert newY m. induction l1 as [|n l1 IH]; intros newY m.
  - right. reflexivity.
  - simpl. destruct (truthy (pushDownDistance newY (node_y n))); [apply IH|now left].
Qed.

(** A node that clears the frontier ends the walk, whatever follows it. *)
Lemma cascade_stops pre c post newY m :
  fst (cascade pre newY m) + MIN_SEPARATION - node_y c <= 0 ->
  cascade (pre ++ c :: post) newY m = cascade pre newY m.
Proof.
  intros Hgap. destruct (cascade_app pre (c :: post) newY m) as [->| ->]; [done|].
  rewrite cascade_stop by now apply pushDownDistance_stop.
  now destruct (cascade pre newY m).
Qed.

Lemma pushed_push node rest newY :
  truthy (pushDownDistance newY (node_y node)) = true ->
  pushed (node :: rest) newY
  = (node, pushDownDistance newY (node_y node))
      :: pushed rest (node_y node + pushDownDistance newY (node_y node) + height_of node).
Proof. intros Ht. simpl. now rewrite Ht. Qed.

Lemma pushed_stop node rest newY :
  truthy (pushDownDistance newY (node_y node)) = false ->
  pushed (node :: rest) newY = [].
Proof. intros Ht. simpl. now rewrite Ht. Qed.

(** The pushed nodes are the first nodes of the walk. *)
Lemma pushed_prefix l newY : exists rest, l = (pushed l newY).*1 ++ rest.
Proof.
  revert newY. induction l as [|n l IH]; intros newY; [now exists []|].
  destruct (truthy (pushDownDistance newY (node_y n))) eqn:Ht.
  - rewrite (pushed_push _ _ _ Ht). simpl.
    destruct (IH (node_y n + pushDownDistance newY (node_y n) + height_of n)) as [rest Hr].
    exists rest. f_equal. exact Hr.
  - rewrite (pushed_stop _ _ _ Ht). now exists (n :: l).
Qed.


Lemma cascade_lookup_other l newY m (k : string) :
  k ∉ ids (pushed l newY).*1 -> snd (cascade l newY m) !! k = m !! k.
Proof.
  revert newY m. induction l as [|n l IH]; intros newY m; simpl; [done|].
  destruct (truthy (pushDownDistance newY (node_y n))) eqn:Ht; [|done].
  simpl. intros Hk. apply not_elem_of_cons in Hk as [Hne Hk].
  rewrite (IH _ _ Hk). now apply lookup_insert_ne.
Qed.

Lemma cascade_lookup_pushed l newY m n d :
  NoDup (ids l) -> (n, d) ∈ pushed l newY ->
  snd (cascade l newY m) !! node_id n = Some d.
Proof.
  revert newY m. induction l as [|k l IH]; intros newY m; simpl;
    [by intros _ ?%elem_of_nil|].
  rewrite NoDup_cons. intros [Hk Hl].
  destruct (truthy (pushDownDistance newY (node_y k))) eqn:Ht; [|by intros ?%elem_of_nil].
  intros [Heq|Hin]%elem_of_cons; [|now apply IH].
  injection Heq as -> ->. rewrite cascade_lookup_other; [apply lookup_insert_eq|].
  intros Hin. apply Hk.
  destruct (pushed_prefix l (node_y k + pushDownDistance newY (node_y k) + height_of k))
    as [rest Hr].
  rewrite Hr, List.map_app. apply elem_of_app. now left.
Qed.

Lemma cascade_lookup_Some l newY (k : string) d :
  snd (cascade l newY ∅) !! k = Some d -> k ∈ ids (pushed l newY).*1.
Proof.
  intros Hk. destruct (decide (k ∈ ids (pushed l newY).*1)) as [|Hn]; [done|].
  rewrite (cascade_lookup_other _ _ _ _ Hn), lookup_empty in Hk. done.
Qed.

Lemma cascade_lookup_mono l newY m (k : string) :
  is_Some (m !! k) -> is_Some (snd (cascade l newY m) !! k).
Proof.
  revert newY m. induction l as [|n l IH]; intros newY m Hk; simpl; [done|].
  destruct (truthy (pushDownDistance newY (node_y n))); [|done].
  apply IH. rewrite lookup_insert_is_Some.
  destruct (decide (node_id n = k)); auto.
Qed.

(** The MoveSet is empty exactly when the first node of the walk, if there
    is one, clears the frontier. *)
Lemma cascade_empty l newY :
  snd (cascade l newY ∅) = ∅ <-> pushed l newY = [].
Proof.
  destruct l as [|n l]; simpl; [done|].
  destruct (truthy (pushDownDistance newY (node_y n))) eqn:Ht; simpl; [|done].
  split; [|done]. intros He. exfalso.
  eapply (is_Some_None (A := Z)). rewrite <- (lookup_empty (M := gmap string) (node_id n)).
  rewrite <- He. apply cascade_lookup_mono. rewrite lookup_insert_eq. eauto.
Qed.

(** Every recorded distance is positive. *)
Lemma cascade_positive l newY m :
  map_Forall (fun _ d => 0 < d) m ->
  map_Forall (fun _ d => 0 < d) (snd (cascade l newY m)).
Proof.
  revert newY m. induction l as [|n l IH]; intros newY m Hm; simpl; [done|].
  destruct (truthy (pushDownDistance newY (node_y n))) eqn:Ht; [|done].
  apply IH, map_Forall_insert_2; [|done].
  apply truthy_true in Ht. pose proof (pushDownDistance_nonneg newY (node_y n)). lia.
Qed.



(** ** The affected nodes are the pushed ones *)






(** ** avoidIntersections, run on an instance *)

Lemma size_zero_empty m : (size m =? 0)%nat = true <-> m = ∅.
Proof. rewrite Nat.eqb_eq. apply map_size_empty_iff. Qed.

Lemma avoidIntersections_absent id expandHeight rootType setNodes' s :
  fst (run (getNode id) s) = None ->
  run (avoidIntersections id expandHeight rootType getNode getNodes setNodes') s
  = (noop, s).
Proof.
  unfold run, avoidIntersections, eff_bind, getNode; simpl. now intros ->.
Qed.

Lemma avoidIntersections_idle id expandHeight rootType setNodes' s self :
  fst (run (getNode id) s) = Some self ->
  computeMoves self expandHeight rootType (rf_nodes s) = ∅ ->
  run (avoidIntersections id expandHeight rootType getNode getNodes setNodes') s
  = (noop, s).
Proof.
  unfold run, avoidIntersections, eff_bind, getNode, getNodes; simpl.
  intros -> ->. reflexivity.
Qed.

Lemma avoidIntersections_moves id expandHeight rootType s self :
  fst (run (getNode id) s) = Some self ->
  computeMoves self expandHeight rootType (rf_nodes s) <> ∅ ->
  run (avoidIntersections id expandHeight rootType getNode getNodes setNodes) s
  = (moveNodes setNodes (computeMoves self expandHeight rootType (rf_nodes s)) false,
     {| rf_nodes := List.map (moveNode (computeMoves self expandHeight rootType (rf_nodes s)) true)
                      (rf_nodes s);
        rf_setNodes_calls := S (rf_setNodes_calls s) |}).
Proof.
  unfold run, avoidIntersections, eff_bind, getNode, getNodes; simpl.
  intros -> Hne.
  destruct (size (computeMoves self expandHeight rootType (rf_nodes s)) =? 0)%nat eqn:Hs.
  - now apply size_zero_empty in Hs.
  - reflexivity.
Qed.

(** The nodes after [avoidIntersections], moved or not. *)
Lemma avoidIntersections_nodes id expandHeight rootType s self :
  fst (run (getNode id) s) = Some self ->
  rf_nodes (snd (run (avoidIntersections id expandHeight rootType
                        getNode getNodes setNodes) s))
  = List.map (moveNode (computeMoves self expandHeight rootType (rf_nodes s)) true)
      (rf_nodes s).
Proof.
  intros Hself.
  destruct (decide (computeMoves self expandHeight rootType (rf_nodes s) = ∅)) as [He|Hne].
  - rewrite (avoidIntersections_idle _ _ _ _ _ _ Hself He), He. simpl.
    rewrite <- (List.map_id (rf_nodes s)) at 1. apply List.map_ext.
    intros n. now rewrite moveNode_unmoved.
  - now rewrite (avoidIntersections_moves _ _ _ _ _ Hself Hne).
Qed.

(** C6. When [getNode(id)] finds no node, [avoidIntersections] leaves the
    instance as it is, whatever [setNodes] it was given, so it calls it not
    once, and the cleanup it returns changes nothing when it is run. *)
Theorem avoidIntersections_absent_node id expandHeight rootType
    (setNodes' : (list Node -> list Node) -> Eff unit) s :
  fst (run (getNode id) s) = None ->
  let r := run (avoidIntersections id expandHeight rootType getNode getNodes setNodes') s in
  snd r = s /\ forall s', run (fst r) s' = (tt, s').
Proof.
  intros Habsent r. subst r. rewrite avoidIntersections_absent by exact Habsent.
  now split.
Qed.

(** C7. When no other node of the snapshot overlaps [self] horizontally the
    MoveSet is empty, for every [expandHeight]; it is empty too when there
    is no candidate and when no candidate has a positive gap.  When the
    MoveSet is empty [avoidIntersections] leaves the instance as it is,
    whatever [setNodes] it was given, and the cleanup it returns changes
    nothing when it is run. *)
Theorem empty_MoveSet_is_inert id expandHeight rootType
    (setNodes' : (list Node -> list Node) -> Eff unit) s self :
  fst (run (getNode id) s) = Some self ->
  let M := computeMoves self expandHeight rootType (rf_nodes s) in
  ((forall n, n ∈ rf_nodes s -> node_id n <> node_id self -> overlapsX self n = false) ->
     M = ∅) /\
  (candidates self rootType (rf_nodes s) = [] -> M = ∅) /\
  ((forall n, n ∈ candidates self rootType (rf_nodes s) ->
      node_y self + expandHeight + MIN_SEPARATION - node_y n <= 0) -> M = ∅) /\
  (M = ∅ ->
     let r := run (avoidIntersections id expandHeight rootType getNode getNodes setNodes') s in
     snd r = s /\ forall s', run (fst r) s' = (tt, s')).
Proof.
  intros Hself M.
  assert (Hnone : candidates self rootType (rf_nodes s) = [] -> M = ∅).
  { intros Hc. subst M. unfold computeMoves. now rewrite Hc. }
  split; [|split; [exact Hnone|split]].
  - intros Hno. apply Hnone.
    destruct (candidates self rootType (rf_nodes s)) as [|n l] eqn:Hc; [done|].
    assert (Hn : n ∈ candidates self rootType (rf_nodes s)) by (rewrite Hc; left).
    apply elem_of_candidates in Hn as (Hin & Hid & _ & _ & Hov).
    rewrite (Hno n Hin Hid) in Hov. discriminate.
  - intros Hgap. subst M. unfold computeMoves.
    destruct (candidates self rootType (rf_nodes s)) as [|n l] eqn:Hc; [done|].
    rewrite cascade_stop; [done|]. apply pushDownDistance_stop, Hgap. left.
  - intros He r. subst r M.
    rewrite (avoidIntersections_idle _ _ _ _ _ _ Hself He). now split.
Qed.

(** C9. A dimension of [0] is handled as an absent one.  With a width of [0]
    or no width [overlapsX] gives the node the width [LINEAGE_NODE_WIDTH],
    so that two nodes of width [0] at one [x] overlap as soon as that
    default is positive; with a height of [0] or no height the loop moves
    the frontier past a pushed node by [LINEAGE_NODE_HEIGHT]. *)
Theorem zero_dimension_falls_back (a b n : Node) rest newY m :
  (node_width a = Some 0 \/ node_width a = None ->
     overlapsX a b
     = (Z.min (node_x a + LINEAGE_NODE_WIDTH)
              (node_x b + or_default (node_width b) LINEAGE_NODE_WIDTH)
        >? Z.max (node_x a) (node_x b)) /\
     overlapsX b a
     = (Z.min (node_x b + or_default (node_width b) LINEAGE_NODE_WIDTH)
              (node_x a + LINEAGE_NODE_WIDTH)
        >? Z.max (node_x b) (node_x a))) /\
  (node_width a = Some 0 -> node_width b = Some 0 -> node_x a = node_x b ->
     0 < LINEAGE_NODE_WIDTH -> overlapsX a b = true) /\
  (node_height n = Some 0 \/ node_height n = None ->
     truthy (pushDownDistance newY (node_y n)) = true ->
     cascade (n :: rest) newY m
     = cascade rest
         (node_y n + pushDownDistance newY (node_y n) + LINEAGE_NODE_HEIGHT)
         (<[node_id n := pushDownDistance newY (node_y n)]> m)).
Proof.
  split; [|split].
  - unfold overlapsX. now intros [-> | ->].
  - unfold overlapsX. intros -> -> -> Hw. simpl. apply Z.gtb_lt. lia.
  - intros Hh Ht. rewrite (cascade_push _ _ _ _ Ht). unfold height_of.
    now destruct Hh as [-> | ->].
Qed.





Lemma computeMoves_lookup_Some self expandHeight rootType all (k : string) d :
  computeMoves self expandHeight rootType all !! k = Some d ->
  exists n, n ∈ candidates self rootType all /\ n ∈ all /\ node_id n = k.
Proof.
  intros Hk. apply cascade_lookup_Some, elem_of_ids_inv in Hk as (n & Hn & Hid).
  exists n. assert (Hc : n ∈ candidates self rootType all).
  { destruct (pushed_prefix (candidates self rootType all) (node_y self + expandHeight))
      as [rest ->]. apply elem_of_app. now left. }
  split; [done|]. split; [|done]. now apply elem_of_candidates in Hc as [Hc _].
Qed.

Lemma computeMoves_positive self expandHeight rootType all (k : string) d :
  computeMoves self expandHeight rootType all !! k = Some d -> 0 < d.
Proof.
  intros Hk. unfold computeMoves in Hk.
  exact (cascade_positive _ _ ∅ (map_Forall_empty _) k d Hk).
Qed.

Lemma unmoved_after id expandHeight rootType s self (i : nat) n :
  fst (run (getNode id) s) = Some self ->
  computeMoves self expandHeight rootType (rf_nodes s) !! node_id n = None ->
  rf_nodes s !! i = Some n ->
  rf_nodes (snd (run (avoidIntersections id expandHeight rootType
                        getNode getNodes setNodes) s)) !! i = Some n.
Proof.
  intros Hself Hnone Hi. rewrite (avoidIntersections_nodes _ _ _ _ _ Hself).
  rewrite map_moveNode_lookup, Hi. simpl. f_equal.
  apply moveNode_unmoved. now rewrite Hnone.
Qed.

(** C4. With unique identifiers: the nodes the loop walks are the nodes of
    the snapshot that are not [self], are not above [self], are not
    transformational for the root type and overlap [self] horizontally.  A
    node of the snapshot that fails one of the four conditions is not in the
    MoveSet and is the same node at the same place afterwards. *)
Theorem candidate_selection id expandHeight rootType s self :
  fst (run (getNode id) s) = Some self ->
  NoDup (List.map node_id (rf_nodes s)) ->
  let M := computeMoves self expandHeight rootType (rf_nodes s) in
  let s' := snd (run (avoidIntersections id expandHeight rootType
                        getNode getNodes setNodes) s) in
  (forall n, n ∈ candidates self rootType (rf_nodes s) <->
     n ∈ rf_nodes s /\ n <> self /\ node_y self <= node_y n /\
     isTransformational (node_data n) rootType = false /\ overlapsX self n = true) /\
  (forall (i : nat) n, rf_nodes s !! i = Some n ->
     n = self \/ node_y n < node_y self \/
     isTransformational (node_data n) rootType = true \/ overlapsX self n = false ->
     M !! node_id n = None /\ rf_nodes s' !! i = Some n).
Proof.
  intros Hself Hnd M s'.
  destruct (getNode_Some _ _ _ Hself) as [Hin _].
  assert (Hchar : forall n, n ∈ candidates self rootType (rf_nodes s) <->
     n ∈ rf_nodes s /\ n <> self /\ node_y self <= node_y n /\
     isTransformational (node_data n) rootType = false /\ overlapsX self n = true).
  { intros n. rewrite elem_of_candidates. split.
    - intros (Hn & Hid & Hrest). split; [done|]. split; [|done]. now intros ->.
    - intros (Hn & Hne & Hrest). split; [done|]. split; [|done].
      intros Hid. apply Hne. now apply (NoDup_ids_inj (rf_nodes s)). }
  split; [exact Hchar|].
  intros i n Hi Hfail.
  assert (Hn : n ∈ rf_nodes s) by exact (list_elem_of_lookup_2 _ _ _ Hi).
  assert (Hout : n ∉ candidates self rootType (rf_nodes s)).
  { rewrite Hchar. intros (_ & Hne & Hy & Htr & Hov).
    destruct Hfail as [?|[?|[?|?]]]; [done|lia|congruence|congruence]. }
  assert (Hnone : M !! node_id n = None).
  { destruct (M !! node_id n) as [d|] eqn:Hd; [|done]. exfalso. apply Hout.
    apply computeMoves_lookup_Some in Hd as (k & Hk & Hka & Hid).
    now rewrite <- (NoDup_ids_inj _ _ _ Hnd Hka Hn Hid). }
  split; [exact Hnone|]. now apply (unmoved_after _ _ _ _ self).
Qed.

(** C5. With unique identifiers: when the sorted candidates are [pre], then
    [c], then [post], and [c] has a gap of at most [0] against the frontier
    the loop has after [pre], the MoveSet is the one of [pre] alone; [c] and
    the nodes of [post] are not in it and are the same nodes at the same
    places afterwards.  The loop itself stops so on every list
    ([cascade_stops]), sorted or not. *)
Theorem early_stop id expandHeight rootType s self pre c post :
  fst (run (getNode id) s) = Some self ->
  NoDup (List.map node_id (rf_nodes s)) ->
  candidates self rootType (rf_nodes s) = pre ++ c :: post ->
  fst (cascade pre (node_y self + expandHeight) ∅) + MIN_SEPARATION - node_y c <= 0 ->
  let M := computeMoves self expandHeight rootType (rf_nodes s) in
  let s' := snd (run (avoidIntersections id expandHeight rootType
                        getNode getNodes setNodes) s) in
  M = snd (cascade pre (node_y self + expandHeight) ∅) /\
  forall n, n ∈ c :: post ->
    M !! node_id n = None /\
    forall i : nat, rf_nodes s !! i = Some n -> rf_nodes s' !! i = Some n.
Proof.
  intros Hself Hnd Hc Hgap M s'.
  assert (HM : M = snd (cascade pre (node_y self + expandHeight) ∅)).
  { subst M. unfold computeMoves. now rewrite Hc, cascade_stops. }
  split; [exact HM|]. intros n Hn.
  assert (Hnone : M !! node_id n = None).
  { rewrite HM, cascade_lookup_other; [apply lookup_empty|].
    intros Hin. apply elem_of_ids_inv in Hin as (k & Hk & Hid).
    pose proof (candidates_NoDup self rootType _ Hnd) as Hcnd. rewrite Hc in Hcnd.
    apply (NoDup_ids_app_disjoint _ _ k n Hcnd); [|done|done].
    destruct (pushed_prefix pre (node_y self + expandHeight)) as [rest Hrest].
    rewrite Hrest. apply elem_of_app. now left. }
  split; [exact Hnone|]. intros i Hi. now apply (unmoved_after _ _ _ _ self).
Qed.

(** ** The cleanup, run again and again *)




(** C3. The scenario: [self] at [y = 100] and [expandHeight = 50], candidates
    [B] at [y = 150] with height [40] and [C] at [y = 210].  The frontier
    starts at [150]; [B] is pushed by [10] and the frontier becomes [200];
    the gap of [C] is [200 + 10 - 210 = 0], so the walk stops.  The MoveSet
    is [{B: 10}]: afterwards [B] is at [y = 160] and [C] is as it was. *)
Theorem scenario_push_B_stop_at_C id rootType s self B C :
  fst (run (getNode id) s) = Some self ->
  node_y self = 100 ->
  node_y B = 150 -> node_height B = Some 40 ->
  node_y C = 210 ->
  node_id B <> node_id C ->
  candidates self rootType (rf_nodes s) = [B; C] ->
  let newY := node_y self + 50 in
  let M := computeMoves self 50 rootType (rf_nodes s) in
  let s' := snd (run (avoidIntersections id 50 rootType getNode getNodes setNodes) s) in
  newY = 150 /\
  pushDownDistance newY (node_y B) = 10 /\
  cascade [B] newY ∅ = (200, {[ node_id B := 10 ]}) /\
  200 + MIN_SEPARATION - node_y C = 0 /\
  pushDownDistance 200 (node_y C) = 0 /\
  M = {[ node_id B := 10 ]} /\
  (forall i : nat, rf_nodes s !! i = Some B -> rf_nodes s' !! i = Some (with_y B 160)) /\
  (forall i : nat, rf_nodes s !! i = Some C -> rf_nodes s' !! i = Some C).
Proof.
  intros Hself Hys HyB HhB HyC Hne Hc newY M s'.
  assert (HnewY : newY = 150) by (subst newY; lia).
  assert (HM : M = {[ node_id B := 10 ]}).
  { subst M. unfold computeMoves. rewrite Hc. fold newY. rewrite HnewY.
    simpl. rewrite HyB, HhB, HyC. reflexivity. }
  split; [exact HnewY|]. rewrite HnewY, HyB, HyC.
  split; [reflexivity|]. split; [simpl; rewrite HyB, HhB; reflexivity|].
  split; [reflexivity|]. split; [reflexivity|]. split; [exact HM|].
  subst s'. rewrite (avoidIntersections_nodes _ _ _ _ _ Hself). fold M. rewrite HM.
  split; intros i Hi; rewrite map_moveNode_lookup, Hi; simpl; f_equal.
  - rewrite (moveNode_moved _ _ _ 10); [now rewrite HyB|].
    now rewrite lookup_singleton_eq.
  - apply moveNode_unmoved. now rewrite lookup_singleton_ne.
Qed.

(** ** moveNodes on objects *)

Lemma alloc_spec (h : list object) o :
  h `prefix_of` (alloc h o).2 /\ (alloc h o).2 !! (alloc h o).1 = Some o /\
  h !! (alloc h o).1 = None.
Proof.
  unfold alloc; simpl. split; [now exists [o]|]. split.
  - now rewrite list_lookup_middle.
  - now apply lookup_ge_None_2.
Qed.

Lemma moveNode_ref_spec m down (r : nat) (h : list object) node :
  h !! r = Some (ONode node) ->
  exists (r' : nat) (h' : list object),
    moveNode_ref m down r h = Some (r', h') /\
    h `prefix_of` h' /\
    h' !! r' = Some (ONode (moveNode m down node)) /\
    (truthy_amount (m !! node_id node) = None -> r' = r) /\
    (is_Some (truthy_amount (m !! node_id node)) -> h !! r' = None).
Proof.
  intros Hr. unfold moveNode_ref, moveNode, truthy_amount. rewrite Hr.
  destruct (m !! node_id node) as [a|].
  - destruct (truthy a).
    + eexists _, _. split; [reflexivity|].
      destruct (alloc_spec h (ONode (with_y node
        (node_y node + (if down then a else - a))))) as (Hp & Hl & Hf).
      repeat split; [exact Hp|exact Hl|done|done].
    + exists r, h. repeat split; [done|done|]. now intros [? ?].
  - exists r, h. repeat split; [done|done|]. now intros [? ?].
Qed.

Lemma map_refs_spec m down (rs : list nat) (h : list object) :
  (forall r : nat, r ∈ rs -> exists node, h !! r = Some (ONode node)) ->
  exists (out : list nat) (h' : list object),
    map_refs (moveNode_ref m down) rs h = Some (out, h') /\
    h `prefix_of` h' /\
    length out = length rs /\
    forall (i r : nat) node, rs !! i = Some r -> h !! r = Some (ONode node) ->
      exists r' : nat, out !! i = Some r' /\
        h' !! r' = Some (ONode (moveNode m down node)) /\
        (truthy_amount (m !! node_id node) = None -> r' = r) /\
        (is_Some (truthy_amount (m !! node_id node)) -> h !! r' = None).
Proof.
  revert h. induction rs as [|r rs IH]; intros h Hwf.
  - exists [], h. simpl. repeat split; [done|]. intros i r node Hi. done.
  - destruct (Hwf r) as [node0 Hr0]; [left|].
    destruct (moveNode_ref_spec m down r h node0 Hr0)
      as (r1 & h1 & Hf & Hp1 & Hl1 & Hsame1 & Hfresh1).
    destruct (IH h1) as (out & h2 & Hm & Hp2 & Hlen & Hout).
    { intros r' Hr'. destruct (Hwf r') as [node' Hn']; [now right|].
      exists node'. exact (prefix_lookup_Some _ _ _ _ Hn' Hp1). }
    exists (r1 :: out), h2. simpl. rewrite Hf, Hm.
    split; [done|]. split; [now transitivity h1|]. split; [now rewrite Hlen|].
    intros [|i] r' node Hi Hr'; simpl in Hi.
    + injection Hi as <-. rewrite Hr0 in Hr'. injection Hr' as <-.
      exists r1. repeat split; [|done|done]. exact (prefix_lookup_Some _ _ _ _ Hl1 Hp2).
    + destruct (Hout i r' node Hi (prefix_lookup_Some _ _ _ _ Hr' Hp1))
        as (r2 & Ho & Hl2 & Hsame2 & Hfresh2).
      exists r2. repeat split; [done|done|done|].
      intros Hs. specialize (Hfresh2 Hs).
      destruct (h !! r2) as [o|] eqn:Ho2; [|done].
      now rewrite (prefix_lookup_Some _ _ _ _ Ho2 Hp1) in Hfresh2.
Qed.

(** C8. [moveNodes], on objects.  The updater returns a new array and writes
    to no object there was: the input array and its nodes are as they were.
    At every index, a node whose identifier is not in the MoveSet is
    returned as the same object; a node whose identifier is in it stands
    with [y] shifted by [+amount] when [down] and by [-amount] otherwise,
    and with its [x], identifier, width, height and data as before.  Read
    as values, the new array is the old one mapped by [moveNode]. *)
Theorem moveNodes_frame (M : gmap string Z) (down : bool)
    (h : list object) (nodes : nat) (rs : list nat) :
  h !! nodes = Some (OArray rs) ->
  (forall r : nat, r ∈ rs -> exists node, h !! r = Some (ONode node)) ->
  exists (nodes' : nat) (out : list nat) (h' : list object),
    moveNodes_update_ref M down nodes h = Some (nodes', h') /\
    h `prefix_of` h' /\
    h' !! nodes = Some (OArray rs) /\
    h !! nodes' = None /\
    h' !! nodes' = Some (OArray out) /\
    length out = length rs /\
    (forall (i r : nat) node, rs !! i = Some r -> h !! r = Some (ONode node) ->
       h' !! r = Some (ONode node) /\
       exists r' : nat, out !! i = Some r' /\
         match M !! node_id node with
         | None => r' = r
         | Some amount =>
             exists node', h' !! r' = Some (ONode node') /\
               node_y node' = node_y node + (if down then amount else - amount) /\
               node_x node' = node_x node /\
               node_id node' = node_id node /\
               node_width node' = node_width node /\
               node_height node' = node_height node /\
               node_data node' = node_data node
         end) /\
    (forall l, deref_nodes h rs = Some l ->
       deref_nodes h' out = Some (List.map (moveNode M down) l)).
Proof.
  intros Harr Hwf.
  destruct (map_refs_spec M down rs h Hwf) as (out & h1 & Hm & Hp1 & Hlen & Hout).
  destruct (alloc_spec h1 (OArray out)) as (Hp2 & Hnew & Hfresh).
  assert (Hp : h `prefix_of` (alloc h1 (OArray out)).2) by now transitivity h1.
  exists (alloc h1 (OArray out)).1, out, (alloc h1 (OArray out)).2.
  split; [unfold moveNodes_update_ref; now rewrite Harr, Hm|].
  split; [exact Hp|]. split; [exact (prefix_lookup_Some _ _ _ _ Harr Hp)|].
  split.
  { destruct (h !! (alloc h1 (OArray out)).1) as [o|] eqn:Ho; [|done].
    now rewrite (prefix_lookup_Some _ _ _ _ Ho Hp1) in Hfresh. }
  split; [exact Hnew|]. split; [exact Hlen|]. split.
  - intros i r node Hi Hr. split; [exact (prefix_lookup_Some _ _ _ _ Hr Hp)|].
    destruct (Hout i r node Hi Hr) as (r' & Ho & Hl & Hsame & _).
    exists r'. split; [done|].
    destruct (M !! node_id node) as [amount|] eqn:Ha.
    + exists (moveNode M down node).
      split; [exact (prefix_lookup_Some _ _ _ _ Hl Hp2)|].
      destruct (moveNode_frame M down node) as (Hid & Hx & Hw & Hh & Hd).
      split; [|done]. rewrite moveNode_y. rewrite Ha. simpl.
      destruct (truthy amount) eqn:Ht; simpl; [destruct down; lia|].
      apply truthy_false in Ht. subst amount. destruct down; lia.
    + now apply Hsame.
  - intros l Hl. apply mapM_Some, Forall2_same_length_lookup.
    apply mapM_Some, Forall2_same_length_lookup in Hl as [Hll Hl].
    split; [rewrite List.length_map; lia|].
    intros i r' n' Ho Hn'. rewrite map_moveNode_lookup in Hn'.
    destruct (l !! i) as [n|] eqn:Hn; [|done]. injection Hn' as <-.
    destruct (rs !! i) as [r|] eqn:Hr.
    2:{ apply lookup_ge_None in Hr. apply lookup_lt_Some in Hn. lia. }
    specialize (Hl i r n Hr Hn). simpl in Hl.
    destruct (h !! r) as [[node|]|] eqn:Hhr; try done. injection Hl as ->.
    destruct (Hout i r n Hr Hhr) as (r2 & Ho2 & Hl2 & _).
    rewrite Ho in Ho2. injection Ho2 as <-.
    now rewrite (prefix_lookup_Some _ _ _ _ Hl2 Hp2).
Qed.

(** * Further properties of the file *)

(** ** overlapsX and pushDownDistance *)

(** X1. The two spans overlap in either order of the arguments. *)
Theorem overlapsX_symmetric (a b : Node) : overlapsX a b = overlapsX b a.
Proof. unfold overlapsX. now rewrite Z.min_comm, Z.max_comm. Qed.



(** ** moveNodes *)




(** ** The MoveSet *)


(** X5. An entry of the MoveSet is a positive distance, and its key is the
    identifier of a node of the snapshot that is not transformational, is
    not above [self] and overlaps it; the key is never the identifier of
    [self]. *)
Theorem computeMoves_entries self expandHeight rootType all (key : string) d :
  computeMoves self expandHeight rootType all !! key = Some d ->
  0 < d /\ key <> node_id self /\
  exists n, n ∈ all /\ node_id n = key /\ node_y self <= node_y n /\
    isTransformational (node_data n) rootType = false /\ overlapsX self n = true.
Proof.
  intros Hk. split; [exact (computeMoves_positive _ _ _ _ _ _ Hk)|].
  apply computeMoves_lookup_Some in Hk as (n & Hc & _ & <-).
  apply elem_of_candidates in Hc as (Hn & Hid & Hy & Htr & Hov).
  split; [done|]. now exists n.
Qed.

(** X6. [avoidIntersections] only ever moves nodes down: it keeps the length and
    the order of the collection, and every node keeps its identifier, [x],
    width, height and data and gets a [y] that is not smaller. *)
Theorem avoidIntersections_moves_down_only id expandHeight rootType s :
  let s' := snd (run (avoidIntersections id expandHeight rootType
                        getNode getNodes setNodes) s) in
  length (rf_nodes s') = length (rf_nodes s) /\
  forall (i : nat) n, rf_nodes s !! i = Some n ->
    exists n', rf_nodes s' !! i = Some n' /\
      node_id n' = node_id n /\ node_x n' = node_x n /\
      node_width n' = node_width n /\ node_height n' = node_height n /\
      node_data n' = node_data n /\ node_y n <= node_y n'.
Proof.
  intros s'. subst s'.
  destruct (fst (run (getNode id) s)) as [self|] eqn:Hself.
  - rewrite (avoidIntersections_nodes _ _ _ _ _ Hself).
    split; [apply List.length_map|]. intros i n Hi.
    exists (moveNode (computeMoves self expandHeight rootType (rf_nodes s)) true n).
    split; [now rewrite map_moveNode_lookup, Hi|].
    destruct (moveNode_frame (computeMoves self expandHeight rootType (rf_nodes s)) true n)
      as (Hid & Hx & Hw & Hh & Hd).
    repeat (split; [assumption|]). rewrite moveNode_y.
    destruct (computeMoves self expandHeight rootType (rf_nodes s) !! node_id n)
      as [d|] eqn:Hd'; simpl; [|lia].
    apply computeMoves_positive in Hd'. destruct (truthy d); simpl; lia.
  - rewrite (avoidIntersections_absent _ _ _ _ _ Hself). simpl.
    split; [done|]. intros i n Hi. exists n. repeat split; [done|lia].
Qed.

(** X7. [avoidIntersections] calls [setNodes] once when the MoveSet has an entry
    and not at all otherwise, and so does each run of the cleanup it
    returns. *)
Theorem setNodes_called_at_most_once id expandHeight rootType s :
  let r := run (avoidIntersections id expandHeight rootType getNode getNodes setNodes) s in
  let moved :=
    match fst (run (getNode id) s) with
    | Some self =>
        negb (bool_decide (computeMoves self expandHeight rootType (rf_nodes s) = ∅))
    | None => false
    end in
  rf_setNodes_calls (snd r)
  = (if moved then S (rf_setNodes_calls s) else rf_setNodes_calls s) /\
  forall s1,
    rf_setNodes_calls (snd (run (fst r) s1))
    = (if moved then S (rf_setNodes_calls s1) else rf_setNodes_calls s1).
Proof.
  intros r moved. subst r moved.
  destruct (fst (run (getNode id) s)) as [self|] eqn:Hself.
  - destruct (decide (computeMoves self expandHeight rootType (rf_nodes s) = ∅))
      as [He|Hne].
    + rewrite (bool_decide_eq_true_2 _ He).
      now rewrite (avoidIntersections_idle _ _ _ _ _ _ Hself He).
    + rewrite (bool_decide_eq_false_2 _ Hne).
      now rewrite (avoidIntersections_moves _ _ _ _ _ Hself Hne).
  - now rewrite (avoidIntersections_absent _ _ _ _ _ Hself).
Qed.



(** ** Where the candidates are afterwards *)










(** ** More room asked, more room made *)

Lemma pushed_mono l newY1 newY2 (i : nat) n d1 :
  newY1 <= newY2 ->
  pushed l newY1 !! i = Some (n, d1) ->
  exists d2, pushed l newY2 !! i = Some (n, d2) /\ d1 <= d2.
Proof.
  revert newY1 newY2 i. induction l as [|k l IH]; intros newY1 newY2 i Hle; [done|].
  destruct (truthy (pushDownDistance newY1 (node_y k))) eqn:Ht1.
  2:{ now rewrite (pushed_stop _ _ _ Ht1). }
  assert (Ht2 : truthy (pushDownDistance newY2 (node_y k)) = true).
  { apply pushDownDistance_push. apply pushDownDistance_push in Ht1. lia. }
  rewrite (pushed_push _ _ _ Ht1), (pushed_push _ _ _ Ht2).
  assert (Hd : pushDownDistance newY1 (node_y k) <= pushDownDistance newY2 (node_y k))
    by (unfold pushDownDistance; lia).
  destruct i as [|i]; simpl.
  - intros [= <- <-]. eexists. split; [reflexivity|exact Hd].
  - apply IH. lia.
Qed.

(** X12. With unique identifiers: a larger [expandHeight] moves every node that a
    smaller one moves, and by no less. *)
Theorem computeMoves_monotone self expandHeight1 expandHeight2 rootType all
    (key : string) d1 :
  NoDup (List.map node_id all) ->
  expandHeight1 <= expandHeight2 ->
  computeMoves self expandHeight1 rootType all !! key = Some d1 ->
  exists d2, computeMoves self expandHeight2 rootType all !! key = Some d2 /\ d1 <= d2.
Proof.
  intros Hnd Hle Hk.
  pose proof (candidates_NoDup self rootType all Hnd) as Hcnd.
  pose proof Hk as Hin.
  apply cascade_lookup_Some, elem_of_ids_inv in Hin as (n & Hn & <-).
  apply list_elem_of_fmap in Hn as ([n0 d] & -> & Hp). simpl in *.
  unfold computeMoves in Hk.
  rewrite (cascade_lookup_pushed _ _ ∅ n0 d Hcnd Hp) in Hk. injection Hk as ->.
  apply list_elem_of_lookup_1 in Hp as [i Hi].
  assert (Hf : node_y self + expandHeight1 <= node_y self + expandHeight2) by lia.
  destruct (pushed_mono _ _ _ i n0 d1 Hf Hi) as (d2 & Hi2 & Hd).
  exists d2. split; [|exact Hd]. unfold computeMoves.
  apply cascade_lookup_pushed; [exact Hcnd|].
  exact (list_elem_of_lookup_2 _ _ _ Hi2).
Qed.

(** ** useAvoidIntersections *)

Lemma moved_down_refl n : moved_down n n.
Proof. unfold moved_down. repeat split; lia. Qed.

Lemma moved_down_trans n1 n2 n3 : moved_down n1 n2 -> moved_down n2 n3 -> moved_down n1 n3.
Proof.
  unfold moved_down. intros (-> & -> & -> & -> & -> & ?) (-> & -> & -> & -> & -> & ?).
  repeat split; lia.
Qed.

Lemma all_moved_down_refl l : Forall2 moved_down l l.
Proof. apply Forall_Forall2_diag, Forall_forall. intros n _. apply moved_down_refl. Qed.

Lemma all_moved_down_trans l1 l2 l3 :
  Forall2 moved_down l1 l2 -> Forall2 moved_down l2 l3 -> Forall2 moved_down l1 l3.
Proof. apply Forall2_trans. intros n1 n2 n3. apply moved_down_trans. Qed.

Lemma avoidIntersections_moved_down id expandHeight rootType s :
  Forall2 moved_down (rf_nodes s)
    (rf_nodes (snd (run (avoidIntersections id expandHeight rootType
                           getNode getNodes setNodes) s))).
Proof.
  destruct (fst (run (getNode id) s)) as [self|] eqn:Hself.
  - rewrite (avoidIntersections_nodes _ _ _ _ _ Hself).
    apply Forall2_fmap_r, Forall_Forall2_diag, Forall_forall. intros n _.
    destruct (moveNode_frame (computeMoves self expandHeight rootType (rf_nodes s)) true n)
      as (Hid & Hx & Hw & Hh & Hd).
    unfold moved_down. repeat (split; [assumption|]). rewrite moveNode_y.
    destruct (computeMoves self expandHeight rootType (rf_nodes s) !! node_id n)
      as [d|] eqn:Hd'; simpl; [|lia].
    apply computeMoves_positive in Hd'. destruct (truthy d); simpl; lia.
  - rewrite (avoidIntersections_absent _ _ _ _ _ Hself). apply all_moved_down_refl.
Qed.

(** X15. The effect of [useAvoidIntersections] never has a cleanup, and with
    [skip] it does nothing.  So whatever renders follow one another, with
    whatever arguments, the hook never moves a node back: every node of the
    collection is moved down or left alone. *)
Theorem useAvoidIntersections_never_moves_back
    (renders : list (string * Z * EntityType * bool)) s :
  let effect (st : ReactFlow) (r : string * Z * EntityType * bool) :=
    let '(id, expandHeight, rootType, skip) := r in
    run (useAvoidIntersections_effect id expandHeight rootType skip
           getNode getNodes setNodes) st in
  (forall st r, fst (effect st r) = None) /\
  (forall st id expandHeight rootType, snd (effect st (id, expandHeight, rootType, true)) = st) /\
  Forall2 moved_down (rf_nodes s)
    (rf_nodes (foldl (fun st r => snd (effect st r)) s renders)).
Proof.
  intros effect.
  split; [|split].
  - intros st [[[id eh] rt] skip]. unfold effect, useAvoidIntersections_effect, run, eff_bind.
    destruct skip; simpl; [done|].
    now destruct (avoidIntersections id eh rt getNode getNodes setNodes st).
  - reflexivity.
  - revert s. induction renders as [|[[[id eh] rt] skip] renders IH]; intros s; simpl.
    + apply all_moved_down_refl.
    + eapply all_moved_down_trans; [|apply IH].
      unfold effect, useAvoidIntersections_effect, run, eff_bind.
      destruct skip; simpl; [apply all_moved_down_refl|].
      pose proof (avoidIntersections_moved_down id eh rt s) as Hm. unfold run in Hm.
      now destruct (avoidIntersections id eh rt getNode getNodes setNodes s).
Qed.

(** ** useAvoidIntersectionsOften *)

Lemma clearTimeout_last (ts : list (nat * (ReactFlow -> ReactFlow))) (h : nat) callback :
  Forall (fun t => (fst t < h)%nat) ts ->
  List.filter (fun t => negb (Nat.eqb (fst t) h)) (ts ++ [(h, callback)]) = ts.
Proof.
  intros Hwf. rewrite List.filter_app. simpl. rewrite Nat.eqb_refl. simpl.
  rewrite app_nil_r. induction Hwf as [|t ts Ht _ IH]; simpl; [done|].
  destruct (Nat.eqb_spec (fst t) h) as [Heq|_]; [lia|]. simpl. now rewrite IH.
Qed.

(** X16. The deferred call can be called off.  Setting it up does not touch the
    instance; when the cleanup runs before the timer has fired, the pending
    timers are the ones there were and [avoidIntersections] is never
    called.  With [skip] nothing is set up at all. *)
Theorem deferred_call_is_cancelled id expandHeight rootType skip (p : Page) :
  timers_wf p ->
  let r := useAvoidIntersectionsOften_effect id expandHeight rootType skip
             getNode getNodes setNodes p in
  pg_flow (snd r) = pg_flow p /\
  timers_wf (snd r) /\
  pg_flow (fst r (snd r)) = pg_flow p /\
  pg_timers (fst r (snd r)) = pg_timers p /\
  (skip = true -> snd r = p /\ forall p', fst r p' = p').
Proof.
  intros Hwf r. subst r. unfold useAvoidIntersectionsOften_effect.
  destruct skip; simpl.
  - repeat split; done.
  - split; [done|]. split.
    + unfold timers_wf in *. simpl. apply Forall_app. split.
      * eapply Forall_impl; [exact Hwf|]. simpl. intros; lia.
      * repeat constructor.
    + split; [done|]. split; [|done]. now apply clearTimeout_last.
Qed.

Lemma find_timer_fresh (ts : list (nat * (ReactFlow -> ReactFlow))) (h : nat) callback :
  Forall (fun t => (fst t < h)%nat) ts ->
  List.find (fun t => Nat.eqb (fst t) h) (ts ++ [(h, callback)]) = Some (h, callback).
Proof.
  intros Hwf. induction Hwf as [|t ts Ht _ IH]; simpl; [now rewrite Nat.eqb_refl|].
  destruct (Nat.eqb_spec (fst t) h) as [Heq|_]; [lia|exact IH].
Qed.

Lemma filter_timers_wf (ts : list (nat * (ReactFlow -> ReactFlow))) (h h' : nat) :
  Forall (fun t => (fst t < h)%nat) ts ->
  Forall (fun t => (fst t < h)%nat)
    (List.filter (fun t => negb (Nat.eqb (fst t) h')) ts).
Proof.
  intros Hwf. induction Hwf as [|t ts Ht _ IH]; simpl; [constructor|].
  destruct (negb (Nat.eqb (fst t) h')); [now constructor|exact IH].
Qed.

Lemma find_app {A} (f : A -> bool) (l1 l2 : list A) :
  List.find f (l1 ++ l2)
  = match List.find f l1 with Some a => Some a | None => List.find f l2 end.
Proof. induction l1 as [|a l1 IH]; simpl; [done|]. now destruct (f a). Qed.

(** A timer that fires leaves a timer set after it pending. *)
Lemma fireTimer_other (h h' : nat) callback flow
    (ts : list (nat * (ReactFlow -> ReactFlow))) (next next' : nat) :
  h' <> h ->
  fireTimer h' (mkPage flow (ts ++ [(h, callback)]) next')
  = mkPage (pg_flow (fireTimer h' (mkPage flow ts next)))
           (pg_timers (fireTimer h' (mkPage flow ts next)) ++ [(h, callback)])
           next'.
Proof.
  intros Hne. unfold fireTimer. simpl.
  rewrite find_app, List.filter_app. simpl.
  destruct (Nat.eqb_spec h h') as [Heq|_]; [congruence|]. simpl.
  destruct (List.find (fun t => Nat.eqb (fst t) h') ts) as [[h0 callback0]|]; done.
Qed.

Lemma fireTimers_other (others : list nat) (h : nat) callback flow
    (ts : list (nat * (ReactFlow -> ReactFlow))) (next next' : nat) :
  Forall (fun h' => h' <> h) others ->
  Forall (fun t => (fst t < h)%nat) ts ->
  let before := foldl (fun q h' => fireTimer h' q) (mkPage flow ts next) others in
  foldl (fun q h' => fireTimer h' q) (mkPage flow (ts ++ [(h, callback)]) next') others
  = mkPage (pg_flow before) (pg_timers before ++ [(h, callback)]) next' /\
  Forall (fun t => (fst t < h)%nat) (pg_timers before).
Proof.
  intros Hothers. revert flow ts.
  induction Hothers as [|h' others Hne _ IH]; intros flow ts Hwf; simpl; [done|].
  rewrite (fireTimer_other h h' callback flow ts next next' Hne).
  assert (Hstep : fireTimer h' (mkPage flow ts next)
                  = mkPage (pg_flow (fireTimer h' (mkPage flow ts next)))
                           (pg_timers (fireTimer h' (mkPage flow ts next))) next).
  { unfold fireTimer. simpl.
    now destruct (List.find (fun t => Nat.eqb (fst t) h') ts) as [[h0 callback0]|]. }
  rewrite Hstep at 3 4 5. apply IH.
  unfold fireTimer. simpl.
  destruct (List.find (fun t => Nat.eqb (fst t) h') ts) as [[h0 callback0]|]; simpl;
    [now apply filter_timers_wf|exact Hwf].
Qed.

Lemma fireTimer_fresh (h : nat) callback flow
    (ts : list (nat * (ReactFlow -> ReactFlow))) (next : nat) :
  Forall (fun t => (fst t < h)%nat) ts ->
  fireTimer h (mkPage flow (ts ++ [(h, callback)]) next) = mkPage (callback flow) ts next.
Proof.
  intros Hwf. unfold fireTimer. simpl.
  now rewrite (find_timer_fresh _ _ _ Hwf), (clearTimeout_last _ _ _ Hwf).
Qed.

Lemma clearTimeout_absent (h : nat) flow
    (ts : list (nat * (ReactFlow -> ReactFlow))) (next : nat) :
  Forall (fun t => (fst t < h)%nat) ts ->
  clearTimeout h (mkPage flow ts next) = mkPage flow ts next.
Proof.
  intros Hwf. unfold clearTimeout. simpl. f_equal.
  induction Hwf as [|t ts' Ht _ IH]; simpl; [done|].
  destruct (Nat.eqb_spec (fst t) h) as [Heq|_]; [lia|]. simpl. now rewrite IH.
Qed.

(** X17. When it is not called off, the deferred call does what
    [avoidIntersections] does on the instance as it is when the timer
    fires, whichever other timers have fired in between.  What
    [avoidIntersections] returns is dropped, and the cleanup of the effect
    then has nothing left to clear: the nodes stay where the call put
    them. *)
Theorem deferred_call_fires id expandHeight rootType (p : Page) (others : list nat) :
  timers_wf p ->
  Forall (fun h' => h' <> pg_next_timer p) others ->
  let r := useAvoidIntersectionsOften_effect id expandHeight rootType false
             getNode getNodes setNodes p in
  let before := foldl (fun q h' => fireTimer h' q) p others in
  let after :=
    fireTimer (pg_next_timer p) (foldl (fun q h' => fireTimer h' q) (snd r) others) in
  pg_flow after
  = snd (run (avoidIntersections id expandHeight rootType getNode getNodes setNodes)
           (pg_flow before)) /\
  pg_timers after = pg_timers before /\
  pg_flow (fst r after) = pg_flow after /\
  pg_timers (fst r after) = pg_timers after.
Proof.
  intros Hwf Hothers r before after. subst r before after.
  destruct p as [flow ts next]. unfold timers_wf in Hwf.
  cbn [pg_timers pg_next_timer] in Hwf, Hothers.
  unfold useAvoidIntersectionsOften_effect, setTimeout.
  cbn [negb fst snd pg_flow pg_timers pg_next_timer].
  destruct (fireTimers_other others next
              (fun s => snd (run (avoidIntersections id expandHeight rootType
                                    getNode getNodes setNodes) s))
              flow ts next (S next) Hothers Hwf) as [-> Hwf'].
  rewrite (fireTimer_fresh _ _ _ _ _ Hwf').
  rewrite (clearTimeout_absent _ _ _ _ Hwf'). now cbn [pg_flow pg_timers].
Qed.

Lemma deferred_renders_inv (renders : list (string * Z * EntityType * bool))
    (flow0 : ReactFlow) (ts0 : list (nat * (ReactFlow -> ReactFlow))) (n0 : nat)
    (st : (Page -> Page) * Page) :
  Forall (fun t => (fst t < n0)%nat) ts0 ->
  (pg_flow (fst st (snd st)) = flow0 /\ pg_timers (fst st (snd st)) = ts0 /\
   (n0 <= pg_next_timer (fst st (snd st)))%nat) ->
  let st' :=
    foldl (fun (st : (Page -> Page) * Page) (r : string * Z * EntityType * bool) =>
             let '(id, expandHeight, rootType, skip) := r in
             useAvoidIntersectionsOften_effect id expandHeight rootType skip
               getNode getNodes setNodes (fst st (snd st)))
          st renders in
  pg_flow (fst st' (snd st')) = flow0 /\ pg_timers (fst st' (snd st')) = ts0 /\
  (n0 <= pg_next_timer (fst st' (snd st')))%nat.
Proof.
  intros Hwf0. revert st.
  induction renders as [|[[[id eh] rt] skip] renders IH]; intros st Inv; [exact Inv|].
  simpl. apply IH. destruct Inv as (Hf & Ht & Hn).
  unfold useAvoidIntersectionsOften_effect. destruct skip; simpl; [done|].
  rewrite Hf, Ht. split; [done|]. split; [|lia].
  apply clearTimeout_last. eapply Forall_impl; [exact Hwf0|]. simpl. intros; lia.
Qed.

(** X18. Renders that follow one another before a timer fires leave one deferred
    call at most.  React runs the cleanup of a render before the effect of
    the next one, so each render calls off the call of the render before:
    after the last render the instance is untouched and the pending timers
    are the ones there were and, unless that render has [skip], the call
    with its arguments. *)
Theorem deferred_calls_are_debounced
    (renders : list (string * Z * EntityType * bool))
    id expandHeight rootType skip (p : Page) :
  timers_wf p ->
  let effect (st : (Page -> Page) * Page) (r : string * Z * EntityType * bool) :=
    let '(id, expandHeight, rootType, skip) := r in
    useAvoidIntersectionsOften_effect id expandHeight rootType skip
      getNode getNodes setNodes (fst st (snd st)) in
  let final :=
    foldl effect ((fun p' => p', p) : (Page -> Page) * Page)
      (renders ++ [(id, expandHeight, rootType, skip)]) in
  pg_flow (snd final) = pg_flow p /\
  snd <$> pg_timers (snd final)
  = (snd <$> pg_timers p)
    ++ (if skip then []
        else [fun s => snd (run (avoidIntersections id expandHeight rootType
                                   getNode getNodes setNodes) s)]).
Proof.
  intros Hwf effect final. subst final. rewrite foldl_snoc.
  destruct (deferred_renders_inv renders (pg_flow p) (pg_timers p) (pg_next_timer p)
              ((fun p' => p', p) : (Page -> Page) * Page) Hwf)
    as (Hf & Ht & _); [simpl; repeat split; lia|].
  fold effect in Hf, Ht.
  set (st := foldl effect ((fun p' => p', p) : (Page -> Page) * Page) renders) in *.
  unfold effect at 1 2. unfold useAvoidIntersectionsOften_effect.
  destruct skip; simpl.
  - rewrite Hf, Ht. now rewrite app_nil_r.
  - rewrite Hf, Ht. split; [done|]. now rewrite fmap_app.
Qed.

(** ** Moved nodes and the candidates left in place *)



(** ** New objects for moved nodes *)

(** X14. A node with a truthy amount comes back as a new object: its reference
    names nothing in the heap there was, so it is neither the node it was
    made from nor any other object of before. *)
Theorem moved_node_is_a_new_object (M : gmap string Z) (down : bool)
    (h h' : list object) (nodes nodes' : nat) (rs out : list nat)
    (i r : nat) node amount :
  h !! nodes = Some (OArray rs) ->
  (forall r : nat, r ∈ rs -> exists node, h !! r = Some (ONode node)) ->
  moveNodes_update_ref M down nodes h = Some (nodes', h') ->
  h' !! nodes' = Some (OArray out) ->
  rs !! i = Some r -> h !! r = Some (ONode node) ->
  M !! node_id node = Some amount -> amount <> 0 ->
  exists r' : nat, out !! i = Some r' /\ h !! r' = None /\ r' <> r /\
    h' !! r' = Some (ONode (with_y node
                              (node_y node + (if down then amount else - amount)))).
Proof.
  intros Harr Hwf Hrun Hout Hi Hr HM Hne.
  destruct (map_refs_spec M down rs h Hwf) as (out0 & h1 & Hm & Hp1 & Hlen & Hspec).
  unfold moveNodes_update_ref in Hrun. rewrite Harr, Hm in Hrun.
  injection Hrun as <- <-.
  destruct (alloc_spec h1 (OArray out0)) as (Hp2 & Hnew & _).
  unfold alloc in Hp2, Hnew, Hout. cbn [fst snd] in Hp2, Hnew, Hout.
  rewrite Hnew in Hout. injection Hout as <-.
  destruct (Hspec i r node Hi Hr) as (r' & Ho & Hl & _ & Hfresh).
  assert (Ht : truthy_amount (M !! node_id node) = Some amount).
  { rewrite HM. simpl. apply truthy_true in Hne. now rewrite Hne. }
  exists r'. split; [done|]. split; [apply Hfresh; rewrite Ht; eauto|]. split.
  - intros ->. rewrite Hfresh in Hr; [done|]. rewrite Ht. eauto.
  - rewrite <- (moveNode_moved M down node amount Ht).
    exact (prefix_lookup_Some _ _ _ _ Hl Hp2).
Qed.

End Properties.

(** * The theorems at work on the concrete instance *)

Section Witnesses.

Import Sample.

Ltac in_list H :=
  repeat (apply elem_of_cons in H as [->|H]); [..|by apply elem_of_nil in H].

Example sort_keeps_ties :
  sort_by_y [node "a" 0 5 None; node "b" 0 3 None; node "c" 0 5 None; node "d" 0 4 None]
  = [node "b" 0 3 None; node "d" 0 4 None; node "a" 0 5 None; node "c" 0 5 None].
Proof. reflexivity. Qed.

Example cascade_two_pushes :
  map_to_list (computeMoves self 120 tt (rf_nodes flow)) = [("C", 70); ("B", 80)].
Proof. reflexivity. Qed.

Example transformational_is_skipped :
  computeMoves self 50 tt
    [self; {| node_id := "T"; node_position := {| pos_x := 0; pos_y := 120 |};
              node_width := None; node_height := None; node_data := true |}; B]
  = {[ "B" := 10 ]}.
Proof. reflexivity. Qed.

Lemma sample_unique_ids : NoDup (List.map node_id (rf_nodes flow)).
Proof. refine (bool_decide_unpack _ _). vm_compute. exact I. Defined.

Lemma sample4_unique_ids : NoDup (List.map node_id (rf_nodes flow4)).
Proof. refine (bool_decide_unpack _ _). vm_compute. exact I. Defined.



Lemma scenario_push_B_stop_at_C_witness :
  fst (run (getNode "self") flow) = Some self /\
  node_y self = 100 /\ node_y B = 150 /\ node_height B = Some 40 /\ node_y C = 210 /\
  node_id B <> node_id C /\
  candidates self tt (rf_nodes flow) = [B; C] /\
  computeMoves self 50 tt (rf_nodes flow) = {[ "B" := 10 ]} /\
  rf_nodes (snd (run (avoidIntersections "self" 50 tt getNode getNodes setNodes) flow))
  !! 1%nat = Some C.
Proof.
  assert (H1 : fst (run (getNode "self") flow) = Some self) by reflexivity.
  assert (H2 : node_y self = 100) by reflexivity.
  assert (H3 : node_y B = 150) by reflexivity.
  assert (H4 : node_height B = Some 40) by reflexivity.
  assert (H5 : node_y C = 210) by reflexivity.
  assert (H6 : node_id B <> node_id C) by discriminate.
  assert (H7 : candidates self tt (rf_nodes flow) = [B; C]) by reflexivity.
  repeat (split; [assumption|]).
  destruct (scenario_push_B_stop_at_C (H:=common) "self" tt flow self B C H1 H2 H3 H4 H5 H6 H7)
    as (_ & _ & _ & _ & _ & HM & _ & HC).
  split; [exact HM|]. apply HC. reflexivity.
Defined.

Lemma candidate_selection_witness :
  fst (run (getNode "self") flow) = Some self /\
  NoDup (List.map node_id (rf_nodes flow)) /\
  (B ∈ candidates self tt (rf_nodes flow) <->
     B ∈ rf_nodes flow /\ B <> self /\ node_y self <= node_y B /\
     isTransformational (node_data B) tt = false /\ overlapsX self B = true) /\
  computeMoves self 50 tt (rf_nodes flow) !! node_id self = None /\
  rf_nodes (snd (run (avoidIntersections "self" 50 tt getNode getNodes setNodes) flow))
  !! 0%nat = Some self.
Proof.
  assert (H1 : fst (run (getNode "self") flow) = Some self) by reflexivity.
  split; [exact H1|]. split; [exact sample_unique_ids|].
  destruct (candidate_selection (H:=common) "self" 50 tt flow self H1 sample_unique_ids)
    as [Hchar Hout].
  split; [exact (Hchar B)|].
  apply (Hout 0%nat self); [reflexivity|]. left. reflexivity.
Defined.

Lemma early_stop_witness :
  fst (run (getNode "self") flow4) = Some self /\
  NoDup (List.map node_id (rf_nodes flow4)) /\
  candidates self tt (rf_nodes flow4) = [B] ++ C :: [D] /\
  fst (cascade [B] (node_y self + 50) ∅) + MIN_SEPARATION - node_y C <= 0 /\
  computeMoves self 50 tt (rf_nodes flow4) = snd (cascade [B] (node_y self + 50) ∅) /\
  forall n, n ∈ C :: [D] ->
    computeMoves self 50 tt (rf_nodes flow4) !! node_id n = None /\
    forall i : nat, rf_nodes flow4 !! i = Some n ->
      rf_nodes (snd (run (avoidIntersections "self" 50 tt getNode getNodes setNodes) flow4))
      !! i = Some n.
Proof.
  assert (H1 : fst (run (getNode "self") flow4) = Some self) by reflexivity.
  assert (H3 : candidates self tt (rf_nodes flow4) = [B] ++ C :: [D]) by reflexivity.
  assert (H4 : fst (cascade [B] (node_y self + 50) ∅) + MIN_SEPARATION - node_y C <= 0)
    by (vm_compute; discriminate).
  split; [exact H1|]. split; [exact sample4_unique_ids|].
  split; [exact H3|]. split; [exact H4|].
  exact (early_stop (H:=common) "self" 50 tt flow4 self [B] C [D] H1 sample4_unique_ids H3 H4).
Defined.

Lemma avoidIntersections_absent_node_witness :
  fst (run (getNode "missing") flow) = None /\
  snd (run (avoidIntersections "missing" 50 tt getNode getNodes setNodes) flow) = flow /\
  forall s',
    run (fst (run (avoidIntersections "missing" 50 tt getNode getNodes setNodes) flow)) s'
    = (tt, s').
Proof.
  assert (H1 : fst (run (getNode "missing") flow) = None) by reflexivity.
  split; [exact H1|].
  exact (avoidIntersections_absent_node (H:=common) "missing" 50 tt setNodes flow H1).
Defined.

Lemma empty_MoveSet_is_inert_witness :
  fst (run (getNode "self") flow) = Some self /\
  computeMoves self 0 tt (rf_nodes flow) = ∅ /\
  snd (run (avoidIntersections "self" 0 tt getNode getNodes setNodes) flow) = flow /\
  forall s',
    run (fst (run (avoidIntersections "self" 0 tt getNode getNodes setNodes) flow)) s'
    = (tt, s').
Proof.
  assert (H1 : fst (run (getNode "self") flow) = Some self) by reflexivity.
  assert (H2 : computeMoves self 0 tt (rf_nodes flow) = ∅) by reflexivity.
  split; [exact H1|]. split; [exact H2|].
  exact (proj2 (proj2 (proj2
           (empty_MoveSet_is_inert (H:=common) "self" 0 tt setNodes flow self H1))) H2).
Defined.

Lemma moveNodes_frame_witness :
  heap !! 3%nat = Some (OArray [0; 1; 2]%nat) /\
  (forall r : nat, r ∈ [0; 1; 2]%nat -> exists node, heap !! r = Some (ONode node)) /\
  exists (nodes' : nat) (out : list nat) (h' : list object),
    moveNodes_update_ref {[ "B" := 10 ]} true 3%nat heap = Some (nodes', h') /\
    heap `prefix_of` h' /\
    h' !! 3%nat = Some (OArray [0; 1; 2]%nat) /\
    heap !! nodes' = None /\
    h' !! nodes' = Some (OArray out) /\
    length out = 3%nat.
Proof.
  assert (H1 : heap !! 3%nat = Some (OArray [0; 1; 2]%nat)) by reflexivity.
  assert (H2 : forall r : nat, r ∈ [0; 1; 2]%nat ->
                 exists node, heap !! r = Some (ONode node)).
  { intros r Hr. in_list Hr; eexists; reflexivity. }
  split; [exact H1|]. split; [exact H2|].
  destruct (moveNodes_frame (H:=common) {[ "B" := 10 ]} true heap 3%nat [0; 1; 2]%nat H1 H2)
    as (nodes' & out & h' & Hrun & Hp & Harr & Hfresh & Hnew & Hlen & _).
  exists nodes', out, h'. repeat (split; [assumption|]). exact Hlen.
Defined.

Lemma zero_dimension_falls_back_witness :
  node_width thin = Some 0 /\ node_x thin = node_x thin /\ 0 < LINEAGE_NODE_WIDTH /\
  overlapsX thin thin = true /\
  node_height D = Some 0 /\
  truthy (pushDownDistance 300 (node_y D)) = true /\
  cascade [D] 300 ∅
  = cascade [] (node_y D + pushDownDistance 300 (node_y D) + LINEAGE_NODE_HEIGHT)
      (<[node_id D := pushDownDistance 300 (node_y D)]> ∅).
Proof.
  assert (H1 : node_width thin = Some 0) by reflexivity.
  assert (H2 : node_x thin = node_x thin) by reflexivity.
  assert (H3 : 0 < LINEAGE_NODE_WIDTH) by reflexivity.
  assert (H4 : node_height D = Some 0) by reflexivity.
  assert (H5 : truthy (pushDownDistance 300 (node_y D)) = true) by reflexivity.
  destruct (zero_dimension_falls_back (H:=common) thin thin D [] 300 ∅) as (_ & Hov & Hcas).
  split; [exact H1|]. split; [exact H2|]. split; [exact H3|].
  split; [exact (Hov H1 H1 H2 H3)|]. split; [exact H4|]. split; [exact H5|].
  exact (Hcas (or_introl H4) H5).
Defined.


(** ** The further properties at work *)



Lemma computeMoves_entries_witness :
  computeMoves self 50 tt (rf_nodes flow) !! "B" = Some 10 /\
  0 < 10 /\ "B" <> node_id self /\
  exists n, n ∈ rf_nodes flow /\ node_id n = "B" /\ node_y self <= node_y n /\
    isTransformational (node_data n) tt = false /\ overlapsX self n = true.
Proof.
  assert (H1 : computeMoves self 50 tt (rf_nodes flow) !! "B" = Some 10) by reflexivity.
  split; [exact H1|].
  exact (computeMoves_entries (H:=common) self 50 tt (rf_nodes flow) "B" 10 H1).
Defined.

Lemma avoidIntersections_moves_down_only_witness :
  rf_nodes flow !! 2%nat = Some B /\
  exists n',
    rf_nodes (snd (run (avoidIntersections "self" 50 tt getNode getNodes setNodes) flow))
    !! 2%nat = Some n' /\
    node_id n' = node_id B /\ node_x n' = node_x B /\
    node_width n' = node_width B /\ node_height n' = node_height B /\
    node_data n' = node_data B /\ node_y B <= node_y n'.
Proof.
  assert (H1 : rf_nodes flow !! 2%nat = Some B) by reflexivity.
  split; [exact H1|].
  exact (proj2 (avoidIntersections_moves_down_only (H:=common) "self" 50 tt flow)
           2%nat B H1).
Defined.






Lemma computeMoves_monotone_witness :
  NoDup (List.map node_id (rf_nodes flow)) /\
  50 <= 120 /\
  computeMoves self 50 tt (rf_nodes flow) !! "B" = Some 10 /\
  exists d2, computeMoves self 120 tt (rf_nodes flow) !! "B" = Some d2 /\ 10 <= d2.
Proof.
  assert (H2 : 50 <= 120) by lia.
  assert (H3 : computeMoves self 50 tt (rf_nodes flow) !! "B" = Some 10) by reflexivity.
  split; [exact sample_unique_ids|]. split; [exact H2|]. split; [exact H3|].
  exact (computeMoves_monotone (H:=common) self 50 120 tt (rf_nodes flow) "B" 10
           sample_unique_ids H2 H3).
Defined.


Lemma sample_page_wf : timers_wf page.
Proof. unfold timers_wf. repeat constructor. Defined.

Lemma deferred_call_is_cancelled_witness :
  timers_wf page /\
  pg_flow (snd (useAvoidIntersectionsOften_effect "self" 50 tt false
                  getNode getNodes setNodes page)) = pg_flow page /\
  pg_timers
    (fst (useAvoidIntersectionsOften_effect "self" 50 tt false
            getNode getNodes setNodes page)
       (snd (useAvoidIntersectionsOften_effect "self" 50 tt false
               getNode getNodes setNodes page)))
  = pg_timers page.
Proof.
  split; [exact sample_page_wf|].
  destruct (deferred_call_is_cancelled (H:=common) "self" 50 tt false page sample_page_wf)
    as (Hflow & _ & _ & Htimers & _).
  split; [exact Hflow|exact Htimers].
Defined.

Lemma deferred_call_fires_witness :
  timers_wf page /\
  Forall (fun h' => h' <> pg_next_timer page) [0%nat] /\
  pg_flow
    (fireTimer (pg_next_timer page)
       (foldl (fun q h' => fireTimer h' q)
          (snd (useAvoidIntersectionsOften_effect "self" 50 tt false
                  getNode getNodes setNodes page))
          [0%nat]))
  = snd (run (avoidIntersections "self" 50 tt getNode getNodes setNodes)
           (pg_flow (foldl (fun q h' => fireTimer h' q) page [0%nat]))).
Proof.
  assert (H2 : Forall (fun h' => h' <> pg_next_timer page) [0%nat]).
  { repeat constructor. discriminate. }
  split; [exact sample_page_wf|]. split; [exact H2|].
  exact (proj1 (deferred_call_fires (H:=common) "self" 50 tt page [0%nat]
                  sample_page_wf H2)).
Defined.

Lemma deferred_calls_are_debounced_witness :
  timers_wf page /\
  length
    (pg_timers
       (snd (foldl
               (fun (st : (Page -> Page) * Page) (r : string * Z * EntityType * bool) =>
                  let '(id, expandHeight, rootType, skip) := r in
                  useAvoidIntersectionsOften_effect id expandHeight rootType skip
                    getNode getNodes setNodes (fst st (snd st)))
               ((fun p' => p', page) : (Page -> Page) * Page)
               ([("self", 50, tt, false); ("self", 80, tt, true)]
                  ++ [("self", 120, tt, false)]))))
  = 2%nat.
Proof.
  split; [exact sample_page_wf|].
  destruct (deferred_calls_are_debounced (H:=common)
              [("self", 50, tt, false); ("self", 80, tt, true)] "self" 120 tt false
              page sample_page_wf) as [_ Htimers].
  apply (f_equal length) in Htimers. rewrite length_fmap in Htimers. exact Htimers.
Defined.

Lemma moved_node_is_a_new_object_witness :
  heap !! 3%nat = Some (OArray [0; 1; 2]%nat) /\
  (forall r : nat, r ∈ [0; 1; 2]%nat -> exists node, heap !! r = Some (ONode node)) /\
  moveNodes_update_ref {[ "B" := 10 ]} true 3%nat heap
  = Some (5%nat, heap ++ [ONode (with_y B 160); OArray [0; 1; 4]%nat]) /\
  (heap ++ [ONode (with_y B 160); OArray [0; 1; 4]%nat]) !! 5%nat
  = Some (OArray [0; 1; 4]%nat) /\
  [0; 1; 2]%nat !! 2%nat = Some 2%nat /\
  heap !! 2%nat = Some (ONode B) /\
  ({[ "B" := 10 ]} : gmap string Z) !! node_id B = Some 10 /\
  10 <> 0 /\
  exists r' : nat, [0; 1; 4]%nat !! 2%nat = Some r' /\ heap !! r' = None /\ r' <> 2%nat /\
    (heap ++ [ONode (with_y B 160); OArray [0; 1; 4]%nat]) !! r'
    = Some (ONode (with_y B (node_y B + 10))).
Proof.
  assert (H1 : heap !! 3%nat = Some (OArray [0; 1; 2]%nat)) by reflexivity.
  assert (H2 : forall r : nat, r ∈ [0; 1; 2]%nat ->
                 exists node, heap !! r = Some (ONode node)).
  { intros r Hr. in_list Hr; eexists; reflexivity. }
  assert (H3 : moveNodes_update_ref {[ "B" := 10 ]} true 3%nat heap
               = Some (5%nat, heap ++ [ONode (with_y B 160); OArray [0; 1; 4]%nat]))
    by reflexivity.
  assert (H4 : (heap ++ [ONode (with_y B 160); OArray [0; 1; 4]%nat]) !! 5%nat
               = Some (OArray [0; 1; 4]%nat)) by reflexivity.
  assert (H5 : [0; 1; 2]%nat !! 2%nat = Some 2%nat) by reflexivity.
  assert (H6 : heap !! 2%nat = Some (ONode B)) by reflexivity.
  assert (H7 : ({[ "B" := 10 ]} : gmap string Z) !! node_id B = Some 10) by reflexivity.
  assert (H8 : 10 <> 0) by discriminate.
  repeat (split; [assumption|]).
  exact (moved_node_is_a_new_object (H:=common) {[ "B" := 10 ]} true heap _ 3%nat 5%nat
           [0; 1; 2]%nat [0; 1; 4]%nat 2%nat 2%nat B 10 H1 H2 H3 H4 H5 H6 H7 H8).
Defined.

End Witnesses.

(** * Where rounding shows

    The statements proved above with exact arithmetic that do not carry over
    to binary64 numbers with fractional digits, each at a collection where
    the program computes otherwise. *)

Section Rounding.

Import Binary64 Binary64.Sample.

#[local] Open Scope float_scope.




(** On integers the binary64 definitions compute what the exact ones do:
    the scenario of C3, and the cleanup giving back the collection. *)
Example integers_are_exact_in_binary64 :
  let flow := Binary64.Sample.flow
                [node "self" 100 None; node "C" 210 None; node "B" 150 (Some 40)] in
  let r := Binary64.run
             (Binary64.avoidIntersections "self" 50 tt
                Binary64.getNode Binary64.getNodes Binary64.setNodes) flow in
  Binary64.rf_nodes (snd r)
  = [node "self" 100 None; node "C" 210 None; node "B" 160 (Some 40)] /\
  Binary64.rf_nodes (snd (Binary64.run (fst r) (snd r))) = Binary64.rf_nodes flow.
Proof. split; reflexivity. Qed.

End Rounding.
